(** * colly: declarative HTML unmarshalling (unmarshal.go)

    A shallow embedding of [UnmarshalHTML] and its helpers
    ([unmarshalAttr], [unmarshalStruct], [unmarshalPtr], [unmarshalSlice],
    [getDOMValue]) together with the part of Go's [reflect] package and of
    [goquery] that they use.

    - Go types are finite trees ([Type_]); a struct type that refers to
      itself through a pointer is represented by the finite unfolding that a
      terminating run visits.
    - Go values live in a store ([gmap loc value]); [reflect.New] allocates a
      fresh location, [Value.Set] updates a struct field in place.
    - A call either returns a nil error, returns [errors.New msg], or panics
      inside [reflect]; [outcome] keeps the three apart.
    - [goquery] and [strings.TrimSpace] are external to the repository and
      enter through the class [Goquery]. *)

From Stdlib Require Import ZArith.
From stdpp Require Import base option list gmap strings.

Set Warnings "-register-all".
Open Scope string_scope.
Open Scope list_scope.
Open Scope nat_scope.

(** ** reflect: kinds and types *)

Inductive Kind := Invalid | Ptr | Slice | String_ | Struct | OtherKind.

Global Instance Kind_eq_dec : EqDecision Kind.
Proof. solve_decision. Defined.

(** [TString defined]: the predeclared type [string] ([defined = false]) or a
    defined type whose underlying type is [string] ([defined = true]); both
    have kind String, only the first accepts a value of type [string].
    [TOther str] is a type of any other kind (int, bool, map, interface, ...),
    [str] being what [Type.String()] prints for it. *)
Inductive Type_ :=
| TString (defined : bool)
| TSlice (elem : Type_)
| TPtr (elem : Type_)
| TStruct (fields : list StructField)
| TOther (str : string)
with StructField :=
| mkStructField (Name : string) (exported : bool)
                (tag_selector tag_attr : string) (Typ : Type_).

Definition Name (f : StructField) : string :=
  match f with mkStructField n _ _ _ _ => n end.
Definition exported (f : StructField) : bool :=
  match f with mkStructField _ e _ _ _ => e end.
(** [attrT.Tag.Get("selector")] and [attrT.Tag.Get("attr")]; a missing key
    reads as the empty string. *)
Definition tag_selector (f : StructField) : string :=
  match f with mkStructField _ _ s _ _ => s end.
Definition tag_attr (f : StructField) : string :=
  match f with mkStructField _ _ _ a _ => a end.
Definition Typ (f : StructField) : Type_ :=
  match f with mkStructField _ _ _ _ t => t end.

Definition kind (t : Type_) : Kind :=
  match t with
  | TString _ => String_
  | TSlice _ => Slice
  | TPtr _ => Ptr
  | TStruct _ => Struct
  | TOther _ => OtherKind
  end.

(** [Type.Elem()]: defined on slices and pointers, panics elsewhere. *)
Definition Elem (t : Type_) : option Type_ :=
  match t with
  | TSlice e | TPtr e => Some e
  | _ => None
  end.

(** [Type.String()].  The decoder prints the type only of a field whose
    kind is none of the four it handles, that is of a [TOther]; the names of
    defined types and the rendering of struct types are not modelled. *)
Fixpoint Type_String (t : Type_) : string :=
  match t with
  | TString _ => "string"
  | TSlice e => "[]" +:+ Type_String e
  | TPtr e => "*" +:+ Type_String e
  | TStruct _ => "struct {...}"
  | TOther str => str
  end.

(** The nesting depth of a type; a decoder run on a record of type [t]
    recurses at most [depth t] calls deep. *)
Fixpoint depth (t : Type_) : nat :=
  match t with
  | TString _ | TOther _ => 0
  | TSlice e | TPtr e => S (depth e)
  | TStruct fs => S (foldr (fun f d => depth (Typ f) `max` d) 0 fs)
  end.

(** ** Values and the store *)

Definition loc := positive.

Inductive value :=
| VString (s : string)
| VSlice (elems : option (list value))   (* [None] is the nil slice *)
| VPtr (target : option loc)             (* [None] is the nil pointer *)
| VStruct (fields : list value)
| VOther (z : Z).

Abbreviation heap := (gmap loc value).

(** The zero value of a type, as [reflect.New] and [var x T] produce it. *)
Fixpoint zero (t : Type_) : value :=
  match t with
  | TString _ => VString ""
  | TSlice _ => VSlice None
  | TPtr _ => VPtr None
  | TStruct fs => VStruct (map (fun f => zero (Typ f)) fs)
  | TOther _ => VOther 0
  end.

(** An [interface{}] argument: [None] is the nil interface, [Some (t, x)] a
    value [x] of dynamic type [t]. *)
Definition interface : Type := option (Type_ * value).

(** A [reflect.Value] for the addressable field [fidx] of the struct stored
    at [base], of static type [vtype] (what [sv.Field(i)] returns). *)
Record Value := mkValue { base : loc; fidx : nat; vtype : Type_ }.

(** [Value.CanAddr() && Value.CanSet()] for a field reached through a
    pointer: the field is addressable, and settable iff it is exported. *)
Definition CanSet (f : StructField) : bool := exported f.

(** The current value of field [i] of the struct stored at [p]. *)
Definition field (h : heap) (p : loc) (i : nat) : option value :=
  match h !! p with
  | Some (VStruct vs) => vs !! i
  | _ => None
  end.

Definition load (a : Value) (h : heap) : option value :=
  field h (base a) (fidx a).

(** [attrV.Set(x)] for an [x] of the field's own type. *)
Definition store (a : Value) (x : value) (h : heap) : heap :=
  alter (fun c => match c with
                  | VStruct vs => VStruct (<[fidx a := x]> vs)
                  | c => c
                  end) (base a) h.

(** [reflect.New(t)]: a pointer to a fresh zero value of type [t]. *)
Definition New (t : Type_) (h : heap) : loc * heap :=
  let l := fresh (dom h) in (l, <[l := zero t]> h).

(** ** The outcome of a call *)

Inductive panic :=
| NumField_of_non_struct   (* reflect: call of reflect.Value.NumField on ... *)
| Set_not_assignable       (* reflect.Set: value of type string is not assignable *)
| Elem_of_invalid_type     (* reflect: Elem of invalid type *)
| stack_exhausted.         (* recursion deeper than the fuel given *)

Inductive outcome :=
| Nil                       (* the call returned a nil error *)
| Err (msg : string)        (* the call returned errors.New(msg) *)
| Panic (p : panic).

(** ** goquery, as the decoder consumes it *)

Class Goquery := {
  Node : Type;
  (** text content of one node *)
  NodeText : Node → string;
  (** value of a named attribute of one node, if present *)
  NodeAttr : Node → string → option string;
  (** nodes below [nodes] that match the selector, in document order *)
  FindNodes : list Node → string → list Node;
  (** strings.TrimSpace *)
  TrimSpace : string → string;
  TrimSpace_empty : TrimSpace "" = "";
}.

Section decoder.
Context `{Goquery}.

(** [goquery.Selection]: its node slice; [None] is a nil slice.  A scope
    [s *goquery.Selection] is modelled by the selection it points to; the
    nil pointer is not a scope. *)
Record Selection := mkSelection { Nodes : option (list Node) }.

Definition nodes (s : Selection) : list Node := default [] (Nodes s).

(** [newEmptySelection] and [newSingleSelection]. *)
Definition newEmptySelection : Selection := {| Nodes := None |}.
Definition newSingleSelection (n : Node) : Selection := {| Nodes := Some [n] |}.

(** [Selection.Find]: the node slice of the result stays nil when nothing
    matches (goquery appends matches to a nil slice). *)
Definition Find (s : Selection) (selector : string) : Selection :=
  match FindNodes (nodes s) selector with
  | [] => {| Nodes := None |}
  | ns => {| Nodes := Some ns |}
  end.

(** [Selection.First], i.e. [Eq(0)]. *)
Definition First (s : Selection) : Selection :=
  match nodes s with
  | [] => newEmptySelection
  | n :: _ => newSingleSelection n
  end.

(** [Selection.Text]: the text of all nodes of the selection, concatenated. *)
Definition Text (s : Selection) : string :=
  String.concat "" (map NodeText (nodes s)).

(** [Selection.Attr]: the attribute of the first node and whether it exists. *)
Definition Attr (s : Selection) (attrName : string) : string * bool :=
  match nodes s with
  | [] => ("", false)
  | n :: _ => match NodeAttr n attrName with
              | Some v => (v, true)
              | None => ("", false)
              end
  end.

(** ** unmarshal.go *)

Definition getDOMValue (s : Selection) (attr : string) : string :=
  if decide (attr = "") then TrimSpace (Text (First s))
  else (Attr s attr).1.

(** [Selection.Each]: the callback runs once per node, in order, on a
    selection holding that node alone; a panic in the callback ends the
    iteration. *)
Fixpoint Each_from (ns : list Node) (i : nat)
    (f : nat → Selection → heap → outcome * heap) (h : heap) : outcome * heap :=
  match ns with
  | [] => (Nil, h)
  | n :: ns' =>
      match f i (newSingleSelection n) h with
      | (Nil, h') => Each_from ns' (S i) f h'
      | r => r
      end
  end.

Definition Each (s : Selection)
    (f : nat → Selection → heap → outcome * heap) (h : heap) : outcome * heap :=
  Each_from (nodes s) 0 f h.

(** [attrV.Pointer() == 0] on a slice field. *)
Definition Pointer_is_0 (a : Value) (h : heap) : bool :=
  match load a h with
  | Some (VSlice (Some _)) => false
  | _ => true
  end.

(** [reflect.MakeSlice(t, 0, 0)]: an empty slice that is not nil. *)
Definition MakeSlice_0_0 : value := VSlice (Some []).

(** [reflect.Append(attrV, x)], as far as the field itself goes: its
    elements followed by [x].  A sequence here is the list of its elements;
    capacity and the array under it are not modelled (see
    [sequences_unset]). *)
Definition Append (a : Value) (x : value) (h : heap) : value :=
  match load a h with
  | Some (VSlice (Some l)) => VSlice (Some (l ++ [x]))
  | _ => VSlice (Some [x])
  end.

(** Whether a value of type [string] may be assigned to a location of
    type [t]. *)
Definition assignable_from_string (t : Type_) : bool :=
  match t with
  | TString false => true
  | _ => false
  end.

Definition unmarshalSlice (s : Selection) (selector htmlAttr : string)
    (attrV : Value) (h : heap) : outcome * heap :=
  let h := if Pointer_is_0 attrV h then store attrV MakeSlice_0_0 h else h in
  match Elem (vtype attrV) with
  | None => (Panic Elem_of_invalid_type, h)
  | Some e =>
      match kind e with
      | String_ =>
          Each (Find s selector) (fun _ s h =>
            let val := getDOMValue s htmlAttr in
            if assignable_from_string e
            then (Nil, store attrV (Append attrV (VString val) h) h)
            else (Panic Set_not_assignable, h)) h
      | _ => (Err "Invalid slice type", h)
      end
  end.

(** The scope a nested record is decoded in: [newS] of [unmarshalStruct]
    and [unmarshalPtr]. *)
Definition narrow (s : Selection) (selector : string) : Selection :=
  if decide (selector ≠ "") then Find s selector else s.

(** [v.Interface()] for [v := reflect.New(t)] at location [l]. *)
Definition pointer_to (t : Type_) (l : loc) : interface :=
  Some (TPtr t, VPtr (Some l)).

(** [reflect.Indirect(v)] for the pointer [l]: the value it points to. *)
Definition Indirect (l : loc) (h : heap) : value :=
  default (VStruct []) (h !! l).

Section body.
(** The recursive calls go to [UnmarshalHTML] itself; the knot is tied
    below. *)
Variable UnmarshalHTML_rec : interface → Selection → heap → outcome * heap.

Definition unmarshalPtr (s : Selection) (selector : string)
    (attrV : Value) (h : heap) : outcome * heap :=
  let newS := narrow s selector in
  match Nodes newS with
  | None => (Nil, h)
  | Some _ =>
      match Elem (vtype attrV) with
      | None => (Panic Elem_of_invalid_type, h)
      | Some e =>
          if decide (kind e ≠ Struct) then (Err "Invalid slice type", h)
          else
            let '(v, h) := New e h in
            match UnmarshalHTML_rec (pointer_to e v) newS h with
            | (Nil, h) => (Nil, store attrV (VPtr (Some v)) h)
            | err => err
            end
      end
  end.

Definition unmarshalStruct (s : Selection) (selector : string)
    (attrV : Value) (h : heap) : outcome * heap :=
  let newS := narrow s selector in
  match Nodes newS with
  | None => (Nil, h)
  | Some _ =>
      let '(v, h) := New (vtype attrV) h in
      match UnmarshalHTML_rec (pointer_to (vtype attrV) v) newS h with
      | (Nil, h) => (Nil, store attrV (Indirect v h) h)
      | err => err
      end
  end.

(** [Value.String()] of a value whose kind is not String. *)
Definition Value_String (a : Value) : string :=
  "<" +:+ Type_String (vtype a) +:+ " Value>".

Definition unmarshalAttr (s : Selection) (attrV : Value)
    (attrT : StructField) (h : heap) : outcome * heap :=
  let selector := tag_selector attrT in
  let htmlAttr := tag_attr attrT in
  match kind (vtype attrV) with
  | Slice => unmarshalSlice s selector htmlAttr attrV h
  | String_ =>
      let val := getDOMValue (Find s selector) htmlAttr in
      if assignable_from_string (vtype attrV)
      then (Nil, store attrV (VString val) h)
      else (Panic Set_not_assignable, h)
  | Struct => unmarshalStruct s selector attrV h
  | Ptr => unmarshalPtr s selector attrV h
  | _ => (Err ("Invalid type: " +:+ Value_String attrV), h)
  end.

(** The loop of [UnmarshalHTML] over the fields [st.Field(i)], [i] running
    from the index of the first field of [fs], for the struct at [p]. *)
Fixpoint fields_loop (s : Selection) (p : loc) (fs : list StructField)
    (i : nat) (h : heap) : outcome * heap :=
  match fs with
  | [] => (Nil, h)
  | attrT :: fs' =>
      if negb (CanSet attrT) then fields_loop s p fs' (S i) h
      else
        match unmarshalAttr s (mkValue p i (Typ attrT)) attrT h with
        | (Nil, h) => fields_loop s p fs' (S i) h
        | err => err
        end
  end.

(** An interface that holds a pointer whose value is not a pointer value
    does not arise in Go; it is sent to the error branch. *)
Definition UnmarshalHTML_body (v : interface) (s : Selection) (h : heap)
    : outcome * heap :=
  match v with
  | Some (TPtr t, VPtr (Some p)) =>
      match t with
      | TStruct fs => fields_loop s p fs 0 h
      | _ => (Panic NumField_of_non_struct, h)
      end
  | _ => (Err "Invalid type or nil-pointer", h)
  end.

End body.

Fixpoint UnmarshalHTML (fuel : nat)
    : interface → Selection → heap → outcome * heap :=
  match fuel with
  | 0 => fun _ _ h => (Panic stack_exhausted, h)
  | S n => UnmarshalHTML_body (UnmarshalHTML n)
  end.

(** [HTMLElement], of which only the field [DOM] matters here, and its
    method [Unmarshal], a shorthand for [UnmarshalHTML]. *)
Record HTMLElement := mkHTMLElement { DOM : Selection }.

Definition Unmarshal (fuel : nat) (h : HTMLElement) (v : interface)
    : heap → outcome * heap :=
  UnmarshalHTML fuel v (DOM h).

(** [Decode], the entry point under the name the specification gives it:
    [UnmarshalHTML] run with more fuel than the destination type is deep,
    which is all the fuel a run can use ([UnmarshalHTML_Decode] below). *)
Definition interface_depth (v : interface) : nat :=
  match v with
  | Some (t, _) => depth t
  | None => 0
  end.

Definition Decode (v : interface) (s : Selection) (h : heap) : outcome * heap :=
  UnmarshalHTML (S (interface_depth v)) v s h.

(** ** Vocabulary of the properties *)

(** Section 4.3 of the specification in its own words: what
    [ExtractValue(scope, attr)] returns. *)
Definition ExtractValue_spec (s : Selection) (attr : string) : string :=
  match nodes s with
  | [] => ""
  | first :: _ =>
      if decide (attr = "") then TrimSpace (NodeText first)
      else default "" (NodeAttr first attr)
  end.

(** What one matched node contributes to a sequence field. *)
Definition extracted (htmlAttr : string) (nd : Node) : value :=
  VString (getDOMValue (newSingleSelection nd) htmlAttr).

(** The scope in which the decoder looks for the nodes of a field: nested
    records keep the current scope when the selector is empty. *)
Definition search_scope (s : Selection) (attrT : StructField) : Selection :=
  match kind (Typ attrT) with
  | Struct | Ptr => narrow s (tag_selector attrT)
  | _ => Find s (tag_selector attrT)
  end.

(** The value [x] is of the kind of the type [t]. *)
Definition of_kind (x : value) (t : Type_) : bool :=
  match t, x with
  | TString _, VString _ | TSlice _, VSlice _ | TPtr _, VPtr _
  | TStruct _, VStruct _ | TOther _, VOther _ => true
  | _, _ => false
  end.

(** The four field types the decoder supports: string, []string, struct,
    *struct. *)
Definition supported (t : Type_) : bool :=
  match t with
  | TString false | TSlice (TString false) | TStruct _ | TPtr (TStruct _) => true
  | _ => false
  end.

(** What decoding does to the value [x] of a field of type [t] whose search
    scope holds no nodes. *)
Definition absent_value (t : Type_) (x : value) : value :=
  match t with
  | TString _ => VString ""
  | TSlice _ => match x with VSlice None => VSlice (Some []) | _ => x end
  | _ => x
  end.

Definition absent_effect (attrT : StructField) (x : value) : value :=
  if CanSet attrT then absent_value (Typ attrT) x else x.

(** The fields of the record a nested field is decoded into: the struct
    type of a by-value field, the target of a by-reference field. *)
Definition nested_record (t : Type_) : option (list StructField) :=
  match t with
  | TStruct fs | TPtr (TStruct fs) => Some fs
  | _ => None
  end.

(** A field the decoder leaves alone: it cannot be set, or it is a nested
    record (by value or by reference) the node slice of whose narrowed scope
    is nil. *)
Definition untouched (s : Selection) (attrT : StructField) : Prop :=
  CanSet attrT = false ∨
  ((kind (Typ attrT) = Struct ∨ kind (Typ attrT) = Ptr) ∧
   Nodes (narrow s (tag_selector attrT)) = None).

(** Two scopes agree, along a record type, on what the decoder finds
    absent: for each settable nested record (by value or by reference) the
    node slices of the two narrowed scopes are both nil or both not nil, and
    in the second case they agree in the same way along the nested record;
    for each settable sequence of a defined string type the selector matches
    in both scopes or in neither. *)
Inductive same_absences : list StructField → Selection → Selection → Prop :=
| same_absences_intro fs s1 s2 :
    (∀ attrT, attrT ∈ fs → CanSet attrT = true →
       kind (Typ attrT) = Struct ∨ kind (Typ attrT) = Ptr →
       (Nodes (narrow s1 (tag_selector attrT)) = None ↔
        Nodes (narrow s2 (tag_selector attrT)) = None)) →
    (∀ attrT fs', attrT ∈ fs → CanSet attrT = true →
       nested_record (Typ attrT) = Some fs' →
       Nodes (narrow s1 (tag_selector attrT)) ≠ None →
       same_absences fs' (narrow s1 (tag_selector attrT))
                         (narrow s2 (tag_selector attrT))) →
    (∀ attrT, attrT ∈ fs → CanSet attrT = true →
       Typ attrT = TSlice (TString true) →
       (nodes (Find s1 (tag_selector attrT)) = [] ↔
        nodes (Find s2 (tag_selector attrT)) = [])) →
    same_absences fs s1 s2.

(** The location an interface value points to, if it is a non-nil pointer. *)
Definition target (v : interface) : option loc :=
  match v with
  | Some (TPtr _, VPtr (Some p)) => Some p
  | _ => None
  end.

(** Between [h] and [h'] no location was freed, and the locations of [h]
    other than [keep] hold what they held. *)
Definition cells_kept (keep : option loc) (h h' : heap) : Prop :=
  dom h ⊆ dom h' ∧ ∀ l, l ∈ dom h → keep ≠ Some l → h' !! l = h !! l.

(** A record stored at [l] in [h] is still a record with as many fields
    in [h']. *)
Definition records_kept (h h' : heap) : Prop :=
  ∀ l vs, h !! l = Some (VStruct vs) →
    ∃ vs', h' !! l = Some (VStruct vs') ∧ length vs' = length vs.

Definition invalid_target : string := "Invalid type or nil-pointer".

(** Whether [msg] contains [name]. *)
Fixpoint mentions (name msg : string) : bool :=
  String.prefix name msg ||
  match msg with
  | EmptyString => false
  | String _ rest => mentions name rest
  end.

(** The settable sequence fields of the record at [p] are nil.
    [reflect.Append] writes into the spare capacity of the array under a
    sequence that is not nil, an array that other sequences of the caller
    may share; the store of this model has no such arrays.  What is said of
    fields and locations other than the one being decoded is therefore said
    for destinations in this state, on which the decoder appends only to
    sequences it has made itself. *)
Definition sequences_unset (fs : list StructField) (p : loc) (h : heap) : Prop :=
  ∀ i attrT, fs !! i = Some attrT → CanSet attrT = true →
    kind (Typ attrT) = Slice → field h p i = Some (VSlice None).

(** ** Vocabulary of the further properties *)

(** The value is not a sequence with elements or storage of its own. *)
Definition unset (x : value) : Prop := ∀ elems, x ≠ VSlice (Some elems).

(** No defined string type occurs in [t]. *)
Fixpoint plain (t : Type_) : bool :=
  match t with
  | TString defined => negb defined
  | TSlice e | TPtr e => plain e
  | TStruct fs => forallb (fun f => plain (Typ f)) fs
  | TOther _ => true
  end.

(** The types decoded without recursion: string and []string. *)
Definition flat (t : Type_) : bool :=
  match t with
  | TString false | TSlice (TString false) => true
  | _ => false
  end.

(** The elements of a sequence; none for the nil sequence. *)
Definition elements (x : value) : list value :=
  match x with
  | VSlice (Some l) => l
  | _ => []
  end.

(** What a settable field of a flat type holds after decoding in scope [s],
    when it held [x]: the extracted value of the first match for a string,
    the former elements followed by one value per match for a sequence. *)
Definition decoded_value (s : Selection) (attrT : StructField) (x : value) : value :=
  if CanSet attrT then
    match Typ attrT with
    | TString _ =>
        VString (getDOMValue (Find s (tag_selector attrT)) (tag_attr attrT))
    | TSlice _ =>
        VSlice (Some (elements x ++
                      map (extracted (tag_attr attrT))
                          (nodes (Find s (tag_selector attrT)))))
    | _ => x
    end
  else x.

(** A value of a type, its pointers being followed through [look]: a
    string for a string type, a sequence whose elements are of the element
    type, a record with one value of its type for each declared field, a
    pointer that is nil or that [look] sends to a value of the target
    type. *)
Inductive typed_in (look : loc → option value) : value → Type_ → Prop :=
| typed_string defined str : typed_in look (VString str) (TString defined)
| typed_nil e : typed_in look (VSlice None) (TSlice e)
| typed_slice e l :
    Forall (fun x => typed_in look x e) l → typed_in look (VSlice (Some l)) (TSlice e)
| typed_nil_ptr e : typed_in look (VPtr None) (TPtr e)
| typed_ptr e l x :
    look l = Some x → typed_in look x e → typed_in look (VPtr (Some l)) (TPtr e)
| typed_struct fs vs :
    Forall2 (fun x f => typed_in look x (Typ f)) vs fs →
    typed_in look (VStruct vs) (TStruct fs)
| typed_other str z : typed_in look (VOther z) (TOther str).

(** The store [h] without the locations of [D]. *)
Definition outside (D : gset loc) (h : heap) (l : loc) : option value :=
  if decide (l ∈ D) then None else h !! l.

(** The location [p] holds a record of the fields [fs], each field a value
    of its type whose pointers lead outside [D]. *)
Definition record_ok (D : gset loc) (p : loc) (fs : list StructField)
    (h : heap) : Prop :=
  ∃ vs, h !! p = Some (VStruct vs) ∧
        Forall2 (fun x f => typed_in (outside D h) x (Typ f)) vs fs.

(** The field [i] of [b] holds in [h'] what it held in [h], or something
    that is not a pointer. *)
Definition no_new_pointer (b : loc) (i : nat) (h h' : heap) : Prop :=
  field h' b i = field h b i ∨ ∀ q, field h' b i ≠ Some (VPtr q).

(** The error messages of unmarshal.go. *)
Definition known_error (msg : string) : Prop :=
  msg = "Invalid type or nil-pointer" ∨
  msg = "Invalid slice type" ∨
  ∃ str, msg = "Invalid type: <" +:+ str +:+ " Value>".

End decoder.

(** ** A small document model

    An instance of [Goquery] on which the decoder can be run: element nodes with
    a tag, attributes and children, text nodes, and selectors that are tag
    names (CSS type selectors).  [addr] plays the part of the node's
    address: goquery compares nodes by pointer when it removes duplicates. *)

Module Html.

Inductive node :=
| Element (addr : nat) (tag : string) (attrs : list (string * string))
          (children : list node)
| TextNode (data : string).

Fixpoint text (n : node) : string :=
  match n with
  | TextNode d => d
  | Element _ _ _ cs => String.concat "" (map text cs)
  end.

Fixpoint lookup_attr (attrs : list (string * string)) (name : string)
    : option string :=
  match attrs with
  | [] => None
  | (k, v) :: rest => if decide (k = name) then Some v else lookup_attr rest name
  end.

Definition attribute (n : node) (name : string) : option string :=
  match n with
  | TextNode _ => None
  | Element _ _ attrs _ => lookup_attr attrs name
  end.

(** The element nodes strictly below [n], in document order. *)
Fixpoint descendants (n : node) : list node :=
  match n with
  | TextNode _ => []
  | Element _ _ _ cs =>
      flat_map (fun c => match c with
                         | TextNode _ => []
                         | Element _ _ _ _ => c :: descendants c
                         end) cs
  end.

Definition has_tag (selector : string) (n : node) : bool :=
  match n with
  | TextNode _ => false
  | Element _ t _ _ => bool_decide (t = selector)
  end.

Definition address (n : node) : nat :=
  match n with
  | TextNode _ => 0
  | Element a _ _ _ => a
  end.

Fixpoint without_duplicates (seen : list nat) (ns : list node) : list node :=
  match ns with
  | [] => []
  | n :: rest =>
      if bool_decide (address n ∈ seen) then without_duplicates seen rest
      else n :: without_duplicates (address n :: seen) rest
  end.

Definition find (ns : list node) (selector : string) : list node :=
  without_duplicates []
    (flat_map (fun n => filter (fun d => has_tag selector d = true) (descendants n)) ns).

(** The white space of ASCII: tab, line feed, vertical tab, form feed,
    carriage return, space. *)
Definition is_space (c : Ascii.ascii) : bool :=
  let k := Ascii.nat_of_ascii c in
  bool_decide (k = 32 ∨ (9 ≤ k ∧ k ≤ 13)).

Fixpoint trim_left (s : string) : string :=
  match s with
  | EmptyString => EmptyString
  | String c rest => if is_space c then trim_left rest else s
  end.

Fixpoint rev_string (acc s : string) : string :=
  match s with
  | EmptyString => acc
  | String c rest => rev_string (String c acc) rest
  end.

Definition trim (s : string) : string :=
  rev_string "" (trim_left (rev_string "" (trim_left s))).

#[export] Instance html_Goquery : Goquery := {|
  Node := node;
  NodeText := text;
  NodeAttr := attribute;
  FindNodes := find;
  TrimSpace := trim;
  TrimSpace_empty := eq_refl;
|}.

(** <html><h1> Hello </h1><a href="x"/><a href="y"/><a href=" z "/>
    <div class="box"><p>some text</p></div></html> *)
Definition page : node :=
  Element 1 "html" []
    [ Element 2 "h1" [] [TextNode " Hello "];
      Element 3 "a" [("href", "x")] [];
      Element 4 "a" [("href", "y")] [];
      Element 5 "a" [("href", " z ")] [];
      Element 6 "div" [("class", "box")] [Element 7 "p" [] [TextNode "some text"]] ].

Definition root : Selection := {| Nodes := Some [page] |}.



End Html.

(** ** Records and stores for the scenarios *)

Module Scenario.
Import Html.

Definition dest : loc := 1%positive.

(** type Inner struct { P string `selector:"p"` } *)
Definition Inner : list StructField :=
  [mkStructField "P" true "p" "" (TString false)].

(** type Article struct {
      Title string   `selector:"h1"`
      Links []string `selector:"a" attr:"href"`
      Box   *Inner   `selector:"div"`
      Body  Inner    `selector:"div"`
      note  string   `selector:"h1"`
    } *)
Definition Article : list StructField :=
  [mkStructField "Title" true "h1" "" (TString false);
   mkStructField "Links" true "a" "href" (TSlice (TString false));
   mkStructField "Box" true "div" "" (TPtr (TStruct Inner));
   mkStructField "Body" true "div" "" (TStruct Inner);
   mkStructField "note" false "h1" "" (TString false)].

(** The same shape with selectors that match nothing in [page]. *)
Definition Missing : list StructField :=
  [mkStructField "Title" true "h2" "" (TString false);
   mkStructField "Tags" true "li" "" (TSlice (TString false));
   mkStructField "Box" true "section" "" (TPtr (TStruct Inner));
   mkStructField "Body" true "section" "" (TStruct Inner);
   mkStructField "note" false "h1" "" (TString false)].

(** type Tagged struct { Tags []string `selector:"li"` } *)
Definition Tagged : list StructField :=
  [mkStructField "Tags" true "li" "" (TSlice (TString false))].

(** type Titled struct { Title string `selector:"h2"` } *)
Definition Titled : list StructField :=
  [mkStructField "Title" true "h2" "" (TString false)].

(** type Counted struct {
      Title string   `selector:"h1"`
      Count int      `selector:"div"`
      Links []string `selector:"a" attr:"href"`
    } *)
Definition Count : StructField := mkStructField "Count" true "div" "" (TOther "int").
Definition Counted : list StructField :=
  [mkStructField "Title" true "h1" "" (TString false);
   Count;
   mkStructField "Links" true "a" "href" (TSlice (TString false))].

(** type Numbered struct {
      Title string `selector:"h1"`
      Nums  []int  `selector:"a"`
    } *)
Definition Nums : StructField :=
  mkStructField "Nums" true "a" "" (TSlice (TOther "int")).
Definition Numbered : list StructField :=
  [mkStructField "Title" true "h1" "" (TString false); Nums].


(** type Wrapped struct {
      In struct { Count int `selector:"div"` } `selector:"div"`
    } *)
Definition In : StructField := mkStructField "In" true "div" "" (TStruct [Count]).
Definition Wrapped : list StructField := [In].

(** type Outer struct {
      Inner struct { V string `selector:"span"` } `selector:"div"`
    } *)
Definition Outer : list StructField :=
  [mkStructField "Inner" true "div" ""
     (TStruct [mkStructField "V" true "span" "" (TString false)])].

(** type Heading string
    type Kinded struct {
      Title string  `selector:"h1"`
      Kind  Heading `selector:"h1"`
    } *)
Definition Kind_field : StructField :=
  mkStructField "Kind" true "h1" "" (TString true).
Definition Kinded : list StructField :=
  [mkStructField "Title" true "h1" "" (TString false); Kind_field].

(** type Headline struct {
      Title string   `selector:"h1"`
      Links []string `selector:"a" attr:"href"`
      note  string
    } *)
Definition Headline : list StructField :=
  [mkStructField "Title" true "h1" "" (TString false);
   mkStructField "Links" true "a" "href" (TSlice (TString false));
   mkStructField "note" false "" "" (TString false)].

(** A store holding a zero record of the given type at [dest]. *)
Definition fresh_record (fs : list StructField) : heap :=
  {[ dest := zero (TStruct fs) ]}.

(** A store in which the caller has set the title before decoding. *)
Definition titled_before : heap := {[ dest := VStruct [VString "old"] ]}.

(** The scope of the heading of [page]: one node, nothing below it but
    text. *)
Definition heading : Selection := Find root "h1".

(** The last link of [page], whose href is " z ". *)
Definition last_link : Selection :=
  {| Nodes := Some [Element 5 "a" [("href", " z ")] []] |}.

End Scenario.


(** * Properties *)

(** ** The store *)

Section store_lemmas.
Implicit Types (h : heap) (a : Value) (x y : value) (p l : loc).

Lemma store_lookup_ne a x h l : l ≠ base a → store a x h !! l = h !! l.
Proof. intros Hne. unfold store. by rewrite lookup_alter_ne. Qed.

Lemma dom_store a x h : dom (store a x h) = dom h.
Proof. unfold store. apply dom_alter_L. Qed.

Lemma store_struct a x h vs :
  h !! base a = Some (VStruct vs) →
  store a x h = <[base a := VStruct (<[fidx a := x]> vs)]> h.
Proof.
  intros Hp. unfold store. apply map_eq. intros l.
  destruct (decide (l = base a)) as [->|Hne].
  - by rewrite lookup_alter_eq, lookup_insert_eq, Hp.
  - by rewrite lookup_alter_ne, lookup_insert_ne.
Qed.

Lemma field_store_eq a x h :
  is_Some (load a h) → field (store a x h) (base a) (fidx a) = Some x.
Proof.
  unfold load, field, store. intros [y Hy]. rewrite lookup_alter_eq.
  destruct (h !! base a) as [[]|]; simplify_eq/=.
  apply list_lookup_insert_eq. by eapply lookup_lt_Some.
Qed.

Lemma field_store_ne a x h p i :
  p ≠ base a ∨ i ≠ fidx a → field (store a x h) p i = field h p i.
Proof.
  unfold field, store. intros Hne.
  destruct (decide (p = base a)) as [->|Hp].
  - destruct Hne as [|Hi]; [done|]. rewrite lookup_alter_eq.
    destruct (h !! base a) as [[]|]; simpl; try done.
    by rewrite list_lookup_insert_ne.
  - by rewrite lookup_alter_ne.
Qed.

Lemma store_store a x y h : store a y (store a x h) = store a y h.
Proof.
  unfold store. apply map_eq. intros l.
  destruct (decide (l = base a)) as [->|Hne].
  - rewrite !lookup_alter_eq. destruct (h !! base a) as [[]|]; simpl; try done.
    by rewrite list_insert_insert_eq.
  - by rewrite !lookup_alter_ne.
Qed.

Lemma store_id a x h : load a h = Some x → store a x h = h.
Proof.
  unfold load, field, store. intros Hx. apply map_eq. intros l.
  destruct (decide (l = base a)) as [->|Hne].
  - rewrite lookup_alter_eq. destruct (h !! base a) as [[]|]; simplify_eq/=.
    by rewrite list_insert_id.
  - by rewrite lookup_alter_ne.
Qed.

Lemma load_store a x h : is_Some (load a h) → load a (store a x h) = Some x.
Proof. apply field_store_eq. Qed.

Lemma fresh_not_in_heap h : h !! fresh (dom h) = None.
Proof. apply not_elem_of_dom, is_fresh. Qed.

End store_lemmas.

Section properties.
Context `{Goquery}.
Implicit Types (h : heap) (s : Selection) (attrV : Value) (attrT : StructField)
  (p l : loc) (n fuel : nat) (o : outcome).

(** ** The loop over the fields *)

Lemma fields_loop_app rec s p pre fs i h :
  fields_loop rec s p (pre ++ fs) i h =
  match fields_loop rec s p pre i h with
  | (Nil, h1) => fields_loop rec s p fs (i + length pre) h1
  | err => err
  end.
Proof.
  revert i h. induction pre as [|attrT pre IH]; intros i h; simpl.
  - by rewrite Nat.add_0_r.
  - replace (i + S (length pre)) with (S i + length pre) by lia.
    destruct (CanSet attrT); simpl; [|by rewrite IH].
    destruct (unmarshalAttr rec s _ attrT h) as [[] h1]; by rewrite ?IH.
Qed.

(** Decoding a record whose earlier fields decode without error reaches the
    next settable field, and stops there unless that field decodes without
    error too. *)
Lemma UnmarshalHTML_at_field n s p pre attrT post h h1 :
  fields_loop (UnmarshalHTML n) s p pre 0 h = (Nil, h1) →
  CanSet attrT = true →
  UnmarshalHTML (S n) (pointer_to (TStruct (pre ++ attrT :: post)) p) s h =
  match unmarshalAttr (UnmarshalHTML n) s
          (mkValue p (length pre) (Typ attrT)) attrT h1 with
  | (Nil, h2) => fields_loop (UnmarshalHTML n) s p post (S (length pre)) h2
  | err => err
  end.
Proof.
  intros Hpre Hset. simpl. rewrite fields_loop_app, Hpre. simpl.
  rewrite Hset. simpl. done.
Qed.

Lemma fields_loop_unsettable rec s p fs :
  Forall (fun attrT => CanSet attrT = false) fs →
  ∀ i h, fields_loop rec s p fs i h = (Nil, h).
Proof.
  induction 1 as [|attrT fs Hset _ IH]; intros i h; simpl; [done|].
  rewrite Hset. simpl. apply IH.
Qed.

Lemma UnmarshalHTML_no_target n v s h :
  target v = None →
  UnmarshalHTML (S n) v s h = (Err "Invalid type or nil-pointer", h).
Proof.
  intros Hv. simpl. unfold UnmarshalHTML_body.
  destruct v as [[[] []]|]; try done. by destruct target0.
Qed.

(** ** What a call may write *)

Lemma cells_kept_refl keep h : cells_kept keep h h.
Proof. by split. Qed.

Lemma cells_kept_trans keep h1 h2 h3 :
  cells_kept keep h1 h2 → cells_kept keep h2 h3 → cells_kept keep h1 h3.
Proof.
  intros [Hd1 Hk1] [Hd2 Hk2]. split; [set_solver|].
  intros l Hl Hne. rewrite Hk2, Hk1; auto.
Qed.

Lemma cells_kept_store attrV x h : cells_kept (Some (base attrV)) h (store attrV x h).
Proof.
  split; [by rewrite dom_store|].
  intros l _ Hne. apply store_lookup_ne. congruence.
Qed.

Lemma cells_kept_New keep t h : cells_kept keep h (New t h).2.
Proof.
  unfold New. simpl. split.
  - rewrite dom_insert_L. set_solver.
  - intros l Hl _. rewrite lookup_insert_ne; [done|].
    intros <-. by apply is_fresh in Hl.
Qed.

(** A field of [p] is read the same in two stores that agree on [p]. *)
Lemma field_cell_eq h h' p j : h' !! p = h !! p → field h' p j = field h p j.
Proof. unfold field. by intros ->. Qed.

Lemma Each_from_cells_kept attrV (f : nat → Selection → heap → outcome * heap) :
  (∀ i s h, cells_kept (Some (base attrV)) h (f i s h).2) →
  ∀ ns i h, cells_kept (Some (base attrV)) h (Each_from ns i f h).2.
Proof.
  intros Hf ns. induction ns as [|nd ns IH]; intros i h; simpl.
  - apply cells_kept_refl.
  - specialize (Hf i (newSingleSelection nd) h).
    destruct (f i (newSingleSelection nd) h) as [[] h1]; simpl in *; try done.
    eapply cells_kept_trans; [done|apply IH].
Qed.

Lemma Each_from_field_kept (f : nat → Selection → heap → outcome * heap) p j :
  (∀ i s h, field (f i s h).2 p j = field h p j) →
  ∀ ns i h, field (Each_from ns i f h).2 p j = field h p j.
Proof.
  intros Hf ns. induction ns as [|nd ns IH]; intros i h; simpl; [done|].
  specialize (Hf i (newSingleSelection nd) h).
  destruct (f i (newSingleSelection nd) h) as [[] h1]; simpl in *; try done.
  by rewrite IH.
Qed.

Lemma unmarshalSlice_cells_kept s selector htmlAttr attrV h :
  cells_kept (Some (base attrV)) h (unmarshalSlice s selector htmlAttr attrV h).2.
Proof.
  unfold unmarshalSlice.
  set (h0 := if Pointer_is_0 attrV h then _ else _).
  assert (cells_kept (Some (base attrV)) h h0) as H0.
  { unfold h0. destruct (Pointer_is_0 attrV h);
      [apply cells_kept_store | apply cells_kept_refl]. }
  destruct (Elem (vtype attrV)) as [e|]; [|done].
  destruct (kind e); try done.
  eapply cells_kept_trans; [done|]. unfold Each.
  apply Each_from_cells_kept. intros i s' h'.
  destruct (assignable_from_string e); simpl;
    [apply cells_kept_store | apply cells_kept_refl].
Qed.

Lemma unmarshalSlice_field_kept s selector htmlAttr attrV h p j :
  p ≠ base attrV ∨ j ≠ fidx attrV →
  field (unmarshalSlice s selector htmlAttr attrV h).2 p j = field h p j.
Proof.
  intros Hne. unfold unmarshalSlice.
  set (h0 := if Pointer_is_0 attrV h then _ else _).
  assert (field h0 p j = field h p j) as H0.
  { unfold h0. destruct (Pointer_is_0 attrV h); [by apply field_store_ne | done]. }
  destruct (Elem (vtype attrV)) as [e|]; [|done].
  destruct (kind e); try done.
  rewrite <- H0. unfold Each. apply Each_from_field_kept. intros i s' h'.
  destruct (assignable_from_string e); simpl; [by apply field_store_ne | done].
Qed.

Section one_level.
(** The helpers, for any callee that writes only below its destination. *)
Variable rec : interface → Selection → heap → outcome * heap.
Hypothesis rec_cells_kept : ∀ v s h, cells_kept (target v) h (rec v s h).2.

(** A call on a freshly allocated record leaves every location of the
    caller's store as it was. *)
Lemma fresh_call_cells_kept t s h :
  cells_kept None h (rec (pointer_to t (New t h).1) s (New t h).2).2.
Proof.
  destruct (rec_cells_kept (pointer_to t (New t h).1) s (New t h).2) as [Hd Hk].
  destruct (cells_kept_New None t h) as [Hd' Hk'].
  split; [set_solver|]. intros l Hl _.
  rewrite Hk, Hk'; [done..|set_solver|].
  simpl. intros [= <-]. by apply is_fresh in Hl.
Qed.

Lemma cells_kept_weaken keep h h' : cells_kept None h h' → cells_kept keep h h'.
Proof. intros [Hd Hk]. split; [done|]. intros l Hl _. by apply Hk. Qed.

Lemma unmarshalStruct_cells_kept s selector attrV h :
  cells_kept (Some (base attrV)) h (unmarshalStruct rec s selector attrV h).2.
Proof.
  unfold unmarshalStruct. destruct (Nodes (narrow s selector)); [|apply cells_kept_refl].
  pose proof (fresh_call_cells_kept (vtype attrV) (narrow s selector) h) as Hcall.
  destruct (New (vtype attrV) h) as [v h1]. simpl in Hcall.
  destruct (rec _ _ h1) as [[] h2]; simpl in *; try by apply cells_kept_weaken.
  eapply cells_kept_trans; [by apply cells_kept_weaken|apply cells_kept_store].
Qed.

Lemma unmarshalPtr_cells_kept s selector attrV h :
  cells_kept (Some (base attrV)) h (unmarshalPtr rec s selector attrV h).2.
Proof.
  unfold unmarshalPtr. destruct (Nodes (narrow s selector)); [|apply cells_kept_refl].
  destruct (Elem (vtype attrV)) as [e|]; [|apply cells_kept_refl].
  case_decide; [apply cells_kept_refl|].
  pose proof (fresh_call_cells_kept e (narrow s selector) h) as Hcall.
  destruct (New e h) as [v h1]. simpl in Hcall.
  destruct (rec _ _ h1) as [[] h2]; simpl in *; try by apply cells_kept_weaken.
  eapply cells_kept_trans; [by apply cells_kept_weaken|apply cells_kept_store].
Qed.

Lemma unmarshalAttr_cells_kept s attrV attrT h :
  cells_kept (Some (base attrV)) h (unmarshalAttr rec s attrV attrT h).2.
Proof.
  unfold unmarshalAttr. destruct (kind (vtype attrV)); try apply cells_kept_refl.
  - apply unmarshalPtr_cells_kept.
  - apply unmarshalSlice_cells_kept.
  - destruct (assignable_from_string _); [apply cells_kept_store|apply cells_kept_refl].
  - apply unmarshalStruct_cells_kept.
Qed.

Lemma unmarshalStruct_field_kept s selector attrV h j :
  base attrV ∈ dom h → j ≠ fidx attrV →
  field (unmarshalStruct rec s selector attrV h).2 (base attrV) j
  = field h (base attrV) j.
Proof.
  intros Hp Hj. unfold unmarshalStruct.
  destruct (Nodes (narrow s selector)); [|done].
  destruct (fresh_call_cells_kept (vtype attrV) (narrow s selector) h) as [_ Hcall].
  specialize (Hcall _ Hp). destruct (New (vtype attrV) h) as [v h1]. simpl in Hcall.
  destruct (rec _ _ h1) as [[] h2]; simpl in *;
    rewrite ?field_store_ne by auto; apply field_cell_eq; auto.
Qed.

Lemma unmarshalPtr_field_kept s selector attrV h j :
  base attrV ∈ dom h → j ≠ fidx attrV →
  field (unmarshalPtr rec s selector attrV h).2 (base attrV) j
  = field h (base attrV) j.
Proof.
  intros Hp Hj. unfold unmarshalPtr.
  destruct (Nodes (narrow s selector)); [|done].
  destruct (Elem (vtype attrV)) as [e|]; [|done].
  case_decide; [done|].
  destruct (fresh_call_cells_kept e (narrow s selector) h) as [_ Hcall].
  specialize (Hcall _ Hp). destruct (New e h) as [v h1]. simpl in Hcall.
  destruct (rec _ _ h1) as [[] h2]; simpl in *;
    rewrite ?field_store_ne by auto; apply field_cell_eq; auto.
Qed.

(** Decoding a field writes no other field of the record. *)
Lemma unmarshalAttr_field_kept s attrV attrT h j :
  base attrV ∈ dom h → j ≠ fidx attrV →
  field (unmarshalAttr rec s attrV attrT h).2 (base attrV) j
  = field h (base attrV) j.
Proof.
  intros Hp Hj. unfold unmarshalAttr. destruct (kind (vtype attrV)); try done.
  - by apply unmarshalPtr_field_kept.
  - apply unmarshalSlice_field_kept. auto.
  - destruct (assignable_from_string _); [|done]. apply field_store_ne. auto.
  - by apply unmarshalStruct_field_kept.
Qed.

Lemma unmarshalAttr_absent_nested s attrV attrT h :
  kind (vtype attrV) = Struct ∨ kind (vtype attrV) = Ptr →
  Nodes (narrow s (tag_selector attrT)) = None →
  unmarshalAttr rec s attrV attrT h = (Nil, h).
Proof.
  intros [Hk|Hk] Hnil; unfold unmarshalAttr; rewrite Hk;
    [unfold unmarshalStruct | unfold unmarshalPtr]; by rewrite Hnil.
Qed.

Lemma fields_loop_cells_kept s p fs :
  ∀ i h, cells_kept (Some p) h (fields_loop rec s p fs i h).2.
Proof.
  induction fs as [|attrT fs IH]; intros i h; simpl; [apply cells_kept_refl|].
  destruct (CanSet attrT); simpl; [|apply IH].
  pose proof (unmarshalAttr_cells_kept s (mkValue p i (Typ attrT)) attrT h) as Hstep.
  destruct (unmarshalAttr _ _ _ _ h) as [[] h1]; simpl in *; try done.
  eapply cells_kept_trans; [done|apply IH].
Qed.

Lemma fields_loop_field_kept s p fs :
  ∀ i h j,
    p ∈ dom h →
    (∀ k attrT, fs !! k = Some attrT → j = i + k → untouched s attrT) →
    field (fields_loop rec s p fs i h).2 p j = field h p j.
Proof.
  induction fs as [|attrT fs IH]; intros i h j Hp Hj; simpl; [done|].
  assert (∀ k attrT', fs !! k = Some attrT' → j = S i + k → untouched s attrT')
    as Hrest.
  { intros k attrT' Hk ->. apply (Hj (S k)); [done|lia]. }
  destruct (CanSet attrT) eqn:Hset; simpl; [|by apply IH].
  assert (field (unmarshalAttr rec s (mkValue p i (Typ attrT)) attrT h).2 p j
          = field h p j) as Hstep.
  { destruct (decide (j = i)) as [->|Hne].
    - destruct (Hj 0 attrT) as [?|[Hk Hnil]]; [done|lia|congruence|].
      by rewrite unmarshalAttr_absent_nested.
    - by apply (unmarshalAttr_field_kept s (mkValue p i (Typ attrT))). }
  destruct (unmarshalAttr_cells_kept s (mkValue p i (Typ attrT)) attrT h) as [Hd _].
  destruct (unmarshalAttr _ _ _ _ h) as [[] h1]; simpl in *; try done.
  rewrite IH; [done|set_solver|done].
Qed.

End one_level.

Lemma UnmarshalHTML_cells_kept n :
  ∀ v s h, cells_kept (target v) h (UnmarshalHTML n v s h).2.
Proof.
  induction n as [|n IH]; intros v s h; simpl; [apply cells_kept_refl|].
  unfold UnmarshalHTML_body.
  destruct v as [[[] []]|]; try apply cells_kept_refl.
  destruct target0 as [p|]; [|apply cells_kept_refl].
  destruct elem; try apply cells_kept_refl.
  simpl. by apply fields_loop_cells_kept.
Qed.

(** The fields decoded so far never reach a later field of the record. *)
Lemma prefix_keeps_later_fields n s p pre h j :
  p ∈ dom h → length pre ≤ j →
  field (fields_loop (UnmarshalHTML n) s p pre 0 h).2 p j = field h p j.
Proof.
  intros Hp Hj. apply fields_loop_field_kept; [apply UnmarshalHTML_cells_kept|done|].
  intros k attrT Hk ->. apply lookup_lt_Some in Hk. simpl in Hj. lia.
Qed.

Lemma field_Some_dom h p j x : field h p j = Some x → p ∈ dom h.
Proof.
  unfold field. intros Hf. apply elem_of_dom.
  destruct (h !! p); [done|discriminate].
Qed.

(** ** Records stay records *)

Lemma records_kept_refl h : records_kept h h.
Proof. intros l vs Hl. eauto. Qed.

Lemma records_kept_trans h1 h2 h3 :
  records_kept h1 h2 → records_kept h2 h3 → records_kept h1 h3.
Proof.
  intros H12 H23 l vs Hl. destruct (H12 l vs Hl) as (vs' & Hl' & Hlen).
  destruct (H23 l vs' Hl') as (vs'' & Hl'' & Hlen'). exists vs''. split; [done|lia].
Qed.

Lemma records_kept_store attrV x h : records_kept h (store attrV x h).
Proof.
  intros l vs Hl. unfold store. destruct (decide (l = base attrV)) as [->|Hne].
  - rewrite lookup_alter_eq, Hl. simpl. eexists. split; [done|apply length_insert].
  - rewrite lookup_alter_ne by done. eauto.
Qed.

Lemma records_kept_New t h : records_kept h (New t h).2.
Proof.
  intros l vs Hl. unfold New. simpl. exists vs. split; [|done].
  rewrite lookup_insert_ne; [done|]. intros <-.
  by rewrite fresh_not_in_heap in Hl.
Qed.

Lemma Each_from_records_kept (f : nat → Selection → heap → outcome * heap) :
  (∀ i s h, records_kept h (f i s h).2) →
  ∀ ns i h, records_kept h (Each_from ns i f h).2.
Proof.
  intros Hf ns. induction ns as [|nd ns IH]; intros i h; simpl.
  - apply records_kept_refl.
  - specialize (Hf i (newSingleSelection nd) h).
    destruct (f i (newSingleSelection nd) h) as [[] h1]; simpl in *; try done.
    eapply records_kept_trans; [done|apply IH].
Qed.

Lemma unmarshalSlice_records_kept s selector htmlAttr attrV h :
  records_kept h (unmarshalSlice s selector htmlAttr attrV h).2.
Proof.
  unfold unmarshalSlice.
  set (h0 := if Pointer_is_0 attrV h then _ else _).
  assert (records_kept h h0) as H0.
  { unfold h0. destruct (Pointer_is_0 attrV h);
      [apply records_kept_store | apply records_kept_refl]. }
  destruct (Elem (vtype attrV)) as [e|]; [|done].
  destruct (kind e); try done.
  eapply records_kept_trans; [done|]. unfold Each.
  apply Each_from_records_kept. intros i s' h'.
  destruct (assignable_from_string e); simpl;
    [apply records_kept_store | apply records_kept_refl].
Qed.

Section one_level_records.
Variable rec : interface → Selection → heap → outcome * heap.
Hypothesis rec_records_kept : ∀ v s h, records_kept h (rec v s h).2.

Lemma unmarshalStruct_records_kept s selector attrV h :
  records_kept h (unmarshalStruct rec s selector attrV h).2.
Proof.
  unfold unmarshalStruct.
  destruct (Nodes (narrow s selector)); [|apply records_kept_refl].
  pose proof (records_kept_New (vtype attrV) h) as Hnew.
  destruct (New (vtype attrV) h) as [v h1]. simpl in Hnew.
  pose proof (rec_records_kept (pointer_to (vtype attrV) v) (narrow s selector) h1)
    as Hcall.
  destruct (rec _ _ h1) as [[] h2]; simpl in *;
    try by eapply records_kept_trans.
  eapply records_kept_trans; [by eapply records_kept_trans|apply records_kept_store].
Qed.

Lemma unmarshalPtr_records_kept s selector attrV h :
  records_kept h (unmarshalPtr rec s selector attrV h).2.
Proof.
  unfold unmarshalPtr.
  destruct (Nodes (narrow s selector)); [|apply records_kept_refl].
  destruct (Elem (vtype attrV)) as [e|]; [|apply records_kept_refl].
  case_decide; [apply records_kept_refl|].
  pose proof (records_kept_New e h) as Hnew.
  destruct (New e h) as [v h1]. simpl in Hnew.
  pose proof (rec_records_kept (pointer_to e v) (narrow s selector) h1) as Hcall.
  destruct (rec _ _ h1) as [[] h2]; simpl in *;
    try by eapply records_kept_trans.
  eapply records_kept_trans; [by eapply records_kept_trans|apply records_kept_store].
Qed.

Lemma unmarshalAttr_records_kept s attrV attrT h :
  records_kept h (unmarshalAttr rec s attrV attrT h).2.
Proof.
  unfold unmarshalAttr. destruct (kind (vtype attrV)); try apply records_kept_refl.
  - apply unmarshalPtr_records_kept.
  - apply unmarshalSlice_records_kept.
  - destruct (assignable_from_string _);
      [apply records_kept_store|apply records_kept_refl].
  - apply unmarshalStruct_records_kept.
Qed.

Lemma fields_loop_records_kept s p fs :
  ∀ i h, records_kept h (fields_loop rec s p fs i h).2.
Proof.
  induction fs as [|attrT fs IH]; intros i h; simpl; [apply records_kept_refl|].
  destruct (CanSet attrT); simpl; [|apply IH].
  pose proof (unmarshalAttr_records_kept s (mkValue p i (Typ attrT)) attrT h) as Hstep.
  destruct (unmarshalAttr _ _ _ _ h) as [[] h1]; simpl in *; try done.
  eapply records_kept_trans; [done|apply IH].
Qed.

End one_level_records.

Lemma UnmarshalHTML_records_kept n :
  ∀ v s h, records_kept h (UnmarshalHTML n v s h).2.
Proof.
  induction n as [|n IH]; intros v s h; simpl; [apply records_kept_refl|].
  unfold UnmarshalHTML_body.
  destruct v as [[[] []]|]; try apply records_kept_refl.
  destruct target0 as [p|]; [|apply records_kept_refl].
  destruct elem; try apply records_kept_refl.
  by apply fields_loop_records_kept.
Qed.

(** ** What a call returns *)

Lemma Each_from_outcome_nil (f : nat → Selection → heap → outcome * heap) :
  (∀ i s h, (f i s h).1 = Nil) → ∀ ns i h, (Each_from ns i f h).1 = Nil.
Proof.
  intros Hf ns. induction ns as [|nd ns IH]; intros i h; simpl; [done|].
  specialize (Hf i (newSingleSelection nd) h).
  destruct (f i (newSingleSelection nd) h) as [o h1]. simpl in Hf. subst o.
  apply IH.
Qed.

Lemma Each_from_outcome_panic (f : nat → Selection → heap → outcome * heap) pk :
  (∀ i s h, (f i s h).1 = Panic pk) →
  ∀ ns i h, (Each_from ns i f h).1 = match ns with [] => Nil | _ => Panic pk end.
Proof.
  intros Hf ns i h. destruct ns as [|nd ns]; simpl; [done|].
  specialize (Hf i (newSingleSelection nd) h).
  destruct (f i (newSingleSelection nd) h) as [o h1]. simpl in Hf. by subst o.
Qed.

(** What [unmarshalSlice] returns, by the element type and the matches. *)
Lemma unmarshalSlice_outcome s selector htmlAttr attrV h :
  (unmarshalSlice s selector htmlAttr attrV h).1 =
  match Elem (vtype attrV) with
  | None => Panic Elem_of_invalid_type
  | Some (TString false) => Nil
  | Some (TString true) =>
      match nodes (Find s selector) with
      | [] => Nil
      | _ => Panic Set_not_assignable
      end
  | Some _ => Err "Invalid slice type"
  end.
Proof.
  unfold unmarshalSlice. destruct (Elem (vtype attrV)) as [[[]| | | |]|]; try done;
    simpl; unfold Each.
  - by apply Each_from_outcome_panic.
  - by apply Each_from_outcome_nil.
Qed.

(** ** Fuel *)

Lemma depth_field attrT fs : attrT ∈ fs → depth (Typ attrT) < depth (TStruct fs).
Proof.
  intros Hin. simpl. apply Nat.lt_succ_r.
  induction Hin as [attrT fs|attrT attrT' fs _ IH]; simpl; lia.
Qed.

Lemma depth_Elem t e : Elem t = Some e → depth e < depth t.
Proof. destruct t; intros [= ->]; simpl; lia. Qed.

Lemma unmarshalAttr_ext rec1 rec2 s attrV attrT h :
  (∀ t, t = vtype attrV ∨ Elem (vtype attrV) = Some t →
     ∀ l s' h', rec1 (pointer_to t l) s' h' = rec2 (pointer_to t l) s' h') →
  unmarshalAttr rec1 s attrV attrT h = unmarshalAttr rec2 s attrV attrT h.
Proof.
  intros Hrec. unfold unmarshalAttr. destruct (kind (vtype attrV)); try done.
  - unfold unmarshalPtr. destruct (Nodes _); [|done].
    destruct (Elem (vtype attrV)) as [e|] eqn:He; [|done]. case_decide; [done|].
    destruct (New e h) as [v h1]. by rewrite (Hrec e) by auto.
  - unfold unmarshalStruct. destruct (Nodes _); [|done].
    destruct (New (vtype attrV) h) as [v h1]. by rewrite (Hrec (vtype attrV)) by auto.
Qed.

Lemma fields_loop_ext rec1 rec2 s p fs :
  (∀ attrT t, attrT ∈ fs → t = Typ attrT ∨ Elem (Typ attrT) = Some t →
     ∀ l s' h', rec1 (pointer_to t l) s' h' = rec2 (pointer_to t l) s' h') →
  ∀ i h, fields_loop rec1 s p fs i h = fields_loop rec2 s p fs i h.
Proof.
  induction fs as [|attrT fs IH]; intros Hrec i h; simpl; [done|].
  assert (∀ i h, fields_loop rec1 s p fs i h = fields_loop rec2 s p fs i h) as Hrest.
  { apply IH. intros attrT' t Hin. apply Hrec. by right. }
  destruct (CanSet attrT); simpl; [|apply Hrest].
  rewrite (unmarshalAttr_ext rec1 rec2).
  - destruct (unmarshalAttr rec2 s _ attrT h) as [[] h1]; [apply Hrest|done..].
  - intros t Ht. apply (Hrec attrT); [by left|done].
Qed.

(** Fuel beyond the depth of the record type changes nothing. *)
Lemma UnmarshalHTML_fuel n :
  ∀ m t p s h, depth t < n → depth t < m →
    UnmarshalHTML n (pointer_to t p) s h = UnmarshalHTML m (pointer_to t p) s h.
Proof.
  induction n as [|n IH]; intros m t p s h Hn Hm; [lia|].
  destruct m as [|m]; [lia|]. simpl. destruct t as [| | |fs|]; try done.
  apply fields_loop_ext. intros attrT t Hin Ht l s' h'.
  pose proof (depth_field attrT fs Hin) as Hd.
  assert (depth t ≤ depth (Typ attrT)) as Hle.
  { destruct Ht as [->|He]; [done|]. apply depth_Elem in He. lia. }
  apply IH; lia.
Qed.

Lemma unmarshalAttr_not_exhausted rec s attrV attrT h :
  (∀ t, t = vtype attrV ∨ Elem (vtype attrV) = Some t →
     ∀ l s' h', (rec (pointer_to t l) s' h').1 ≠ Panic stack_exhausted) →
  (unmarshalAttr rec s attrV attrT h).1 ≠ Panic stack_exhausted.
Proof.
  intros Hrec. unfold unmarshalAttr. destruct (kind (vtype attrV)); try done.
  - unfold unmarshalPtr. destruct (Nodes _); [|done].
    destruct (Elem (vtype attrV)) as [e|] eqn:He; [|done]. case_decide; [done|].
    destruct (New e h) as [v h1].
    specialize (Hrec e (or_intror eq_refl) v (narrow s (tag_selector attrT)) h1).
    by destruct (rec _ _ h1) as [[] h2].
  - rewrite unmarshalSlice_outcome.
    destruct (Elem _) as [[[]| | | |]|]; try done. by destruct (nodes _).
  - by destruct (assignable_from_string _).
  - unfold unmarshalStruct. destruct (Nodes _); [|done].
    destruct (New (vtype attrV) h) as [v h1].
    specialize (Hrec (vtype attrV) (or_introl eq_refl) v
                  (narrow s (tag_selector attrT)) h1).
    by destruct (rec _ _ h1) as [[] h2].
Qed.

(** With more fuel than the depth of the record type, the decoder returns
    or panics in [reflect]; it does not run out of fuel. *)
Lemma UnmarshalHTML_terminates n :
  ∀ t p s h, depth t < n →
    (UnmarshalHTML n (pointer_to t p) s h).1 ≠ Panic stack_exhausted.
Proof.
  induction n as [|n IH]; intros t p s h Hn; [lia|].
  simpl. destruct t as [| | |fs|]; try done.
  assert (∀ attrT, attrT ∈ fs → depth (Typ attrT) < n) as Hfs.
  { intros attrT Hin. pose proof (depth_field attrT fs Hin). lia. }
  clear Hn. generalize 0 as i. revert h.
  induction fs as [|attrT fs IHfs]; intros h i; simpl; [done|].
  assert ((unmarshalAttr (UnmarshalHTML n) s (mkValue p i (Typ attrT)) attrT h).1
          ≠ Panic stack_exhausted) as Hstep.
  { apply unmarshalAttr_not_exhausted. cbn [vtype]. intros t Ht l s' h'.
    apply IH. pose proof (Hfs attrT ltac:(left)) as Hd.
    destruct Ht as [->|He]; [done|]. apply depth_Elem in He. lia. }
  assert (∀ h i, (fields_loop (UnmarshalHTML n) s p fs i h).1 ≠ Panic stack_exhausted)
    as Hrest.
  { apply IHfs. intros attrT' Hin. apply Hfs. by right. }
  destruct (CanSet attrT); simpl; [|apply Hrest].
  destruct (unmarshalAttr _ _ _ _ h) as [[] h1]; simpl in *; [apply Hrest|done..].
Qed.

Lemma UnmarshalHTML_Decode n v s h :
  interface_depth v < n → UnmarshalHTML n v s h = Decode v s h.
Proof.
  intros Hn. unfold Decode. destruct n as [|n]; [lia|].
  destruct (target v) as [p|] eqn:Hv.
  - destruct v as [[[] []]|]; try done. destruct target0 as [p'|]; [|done].
    simpl in Hn. apply (UnmarshalHTML_fuel (S n) _ elem p' s h); simpl; lia.
  - by rewrite !UnmarshalHTML_no_target.
Qed.

Lemma Decode_terminates t p s h :
  (Decode (pointer_to t p) s h).1 ≠ Panic stack_exhausted.
Proof. apply UnmarshalHTML_terminates. simpl. lia. Qed.

(** ** Single-value extraction *)

Lemma Text_First s :
  Text (First s) = match nodes s with [] => "" | first :: _ => NodeText first end.
Proof.
  unfold First. destruct (nodes s) as [|first rest]; [done|].
  unfold Text, nodes. simpl. done.
Qed.

(** C3: single-value extraction is a total function to text (it has no
    error result) and returns what section 4.3 says: for an empty attribute
    name the trimmed text of the first matched node, and the empty string on
    a scope without nodes; for a non-empty attribute name the value of that
    attribute of the first matched node, and the empty string when the
    attribute is absent or the scope has no node. *)
Theorem getDOMValue_refines_spec s attr :
  getDOMValue s attr = ExtractValue_spec s attr.
Proof.
  unfold getDOMValue, ExtractValue_spec.
  destruct (decide (attr = "")) as [->|Hattr].
  - rewrite Text_First. destruct (nodes s); [apply TrimSpace_empty | done].
  - unfold Attr. destruct (nodes s) as [|first rest]; [done|].
    by destruct (NodeAttr first attr).
Qed.

(** C10: for a non-empty attribute name the value of the attribute of the
    first node is returned as it is, whatever white space surrounds it;
    [TrimSpace] is applied only on the other branch, to the text of the
    node. *)
Theorem getDOMValue_attr_verbatim s attr :
  (attr ≠ "" →
     getDOMValue s attr = (Attr s attr).1 ∧
     ∀ first rest v, nodes s = first :: rest → NodeAttr first attr = Some v →
       getDOMValue s attr = v) ∧
  (attr = "" → getDOMValue s attr = TrimSpace (Text (First s))).
Proof.
  unfold getDOMValue. split; intros Hattr.
  - rewrite decide_False by done. split; [done|].
    intros first rest v Hs Hv. unfold Attr. by rewrite Hs, Hv.
  - by rewrite decide_True.
Qed.

(** [Find] returns a nil node slice exactly when nothing matches. *)
Lemma Find_nil_iff s selector :
  Nodes (Find s selector) = None ↔ nodes (Find s selector) = [].
Proof.
  unfold nodes, Find. destruct (FindNodes _ selector); simpl; split; done.
Qed.

Lemma getDOMValue_no_nodes s attr : nodes s = [] → getDOMValue s attr = "".
Proof.
  intros Hs. unfold getDOMValue. case_decide.
  - rewrite Text_First, Hs. apply TrimSpace_empty.
  - unfold Attr. by rewrite Hs.
Qed.

(** ** The destination *)

Lemma unmarshalAttr_not_invalid_target rec s attrV attrT h :
  (∀ t l s h, (rec (pointer_to t l) s h).1 ≠ Err invalid_target) →
  (unmarshalAttr rec s attrV attrT h).1 ≠ Err invalid_target.
Proof.
  intros Hrec. unfold unmarshalAttr. destruct (kind (vtype attrV)); try done.
  - unfold unmarshalPtr. destruct (Nodes _); [|done].
    destruct (Elem _) as [e|]; [|done]. case_decide; [done|].
    destruct (New e h) as [v h1].
    specialize (Hrec e v (narrow s (tag_selector attrT)) h1).
    by destruct (rec _ _ h1) as [[] h2].
  - rewrite unmarshalSlice_outcome.
    destruct (Elem _) as [[[]| | | |]|]; try done. by destruct (nodes _).
  - by destruct (assignable_from_string _).
  - unfold unmarshalStruct. destruct (Nodes _); [|done].
    destruct (New (vtype attrV) h) as [v h1].
    specialize (Hrec (vtype attrV) v (narrow s (tag_selector attrT)) h1).
    by destruct (rec _ _ h1) as [[] h2].
Qed.

(** The error for an invalid destination is never produced for a pointer
    that is not nil, however deep the decoder recurses. *)
Lemma UnmarshalHTML_pointer_not_invalid_target n :
  ∀ t p s h, (UnmarshalHTML n (pointer_to t p) s h).1 ≠ Err invalid_target.
Proof.
  induction n as [|n IH]; intros t p s h; simpl; [done|].
  destruct t as [| | |fs|]; try done.
  generalize 0 as i. revert h.
  induction fs as [|attrT fs IHfs]; intros h i; simpl; [done|].
  destruct (CanSet attrT); simpl; [|apply IHfs].
  pose proof (unmarshalAttr_not_invalid_target (UnmarshalHTML n) s
                (mkValue p i (Typ attrT)) attrT h IH) as Hstep.
  destruct (unmarshalAttr _ _ _ _ h) as [[] h1]; simpl in *; done.
Qed.

(** C1 at the input on which the code departs from the claim: a pointer
    that is not nil and does not point to a struct passes the test on the
    destination, and the call then panics in [NumField] instead of returning
    the error for an invalid destination. *)
Theorem pointer_to_non_record_panics n t p s h :
  kind t ≠ Struct →
  UnmarshalHTML (S n) (pointer_to t p) s h = (Panic NumField_of_non_struct, h) ∧
  (UnmarshalHTML (S n) (pointer_to t p) s h).1 ≠ Err invalid_target.
Proof.
  intros Ht. assert (UnmarshalHTML (S n) (pointer_to t p) s h
                     = (Panic NumField_of_non_struct, h)) as ->; [|done].
  simpl. by destruct t.
Qed.

(** The part of C1 that the code does: the error for an invalid destination
    is returned exactly when the destination is the nil interface, is not a
    pointer, or is a nil pointer. *)
Lemma invalid_target_iff n v s h :
  (UnmarshalHTML (S n) v s h).1 = Err invalid_target ↔ target v = None.
Proof.
  split.
  - intros Herr. destruct (target v) as [p|] eqn:Hv; [|done]. exfalso.
    destruct v as [[[] []]|]; try done. destruct target0 as [p'|]; [|done].
    by apply (UnmarshalHTML_pointer_not_invalid_target (S n) elem p' s h).
  - intros Hv. by rewrite UnmarshalHTML_no_target.
Qed.

(** ** Sequences *)

Lemma Each_from_append attrV htmlAttr ns :
  ∀ i h elems,
    load attrV h = Some (VSlice (Some elems)) →
    Each_from ns i (fun _ s h =>
        (Nil, store attrV (Append attrV (VString (getDOMValue s htmlAttr)) h) h)) h =
    (Nil, store attrV
            (VSlice (Some (elems ++ map (extracted htmlAttr) ns))) h).
Proof.
  induction ns as [|nd ns IH]; intros i h elems Hload; cbn [Each_from map].
  - rewrite app_nil_r. by rewrite store_id.
  - unfold Append at 2. rewrite Hload.
    rewrite (IH _ _ (elems ++ [extracted htmlAttr nd])).
    + by rewrite store_store, <- app_assoc.
    + apply load_store. by rewrite Hload.
Qed.

Lemma unmarshalSlice_strings s selector htmlAttr attrV old h :
  vtype attrV = TSlice (TString false) →
  load attrV h = Some (VSlice old) →
  unmarshalSlice s selector htmlAttr attrV h =
  (Nil, store attrV
          (VSlice (Some (default [] old ++
             map (extracted htmlAttr) (nodes (Find s selector))))) h).
Proof.
  intros Ht Hload. unfold unmarshalSlice, Pointer_is_0, Each.
  rewrite Ht, Hload. simpl. destruct old as [elems|]; simpl.
  - by apply Each_from_append.
  - rewrite (Each_from_append _ _ _ _ _ []).
    + by rewrite store_store.
    + apply load_store. by rewrite Hload.
Qed.

(** C4: decoding a field of type []string appends to it one value per node
    that the field's selector matches, in the order of the matches: the
    extracted values stand, in that order, behind the elements the field
    held, so a nil field ends with exactly as many elements as there are
    matched nodes and is not nil even when there are none, and a field that
    was not nil keeps its elements in front. *)
Theorem unmarshalAttr_sequence rec s p i attrT old h :
  Typ attrT = TSlice (TString false) →
  field h p i = Some (VSlice old) →
  let attrV := mkValue p i (Typ attrT) in
  let matched := nodes (Find s (tag_selector attrT)) in
  let appended := map (extracted (tag_attr attrT)) matched in
  let result := default [] old ++ appended in
  unmarshalAttr rec s attrV attrT h = (Nil, store attrV (VSlice (Some result)) h) ∧
  field (store attrV (VSlice (Some result)) h) p i = Some (VSlice (Some result)) ∧
  length result = length (default [] old) + length matched ∧
  (∀ k nd, matched !! k = Some nd →
     result !! (length (default [] old) + k) = Some (extracted (tag_attr attrT) nd)) ∧
  (∀ k x, default [] old !! k = Some x → result !! k = Some x) ∧
  (old = None → result = appended ∧ length result = length matched).
Proof.
  intros Ht Hold attrV matched appended result.
  split; [|split; [|split; [|split; [|split]]]].
  - unfold unmarshalAttr. subst attrV. cbn [vtype]. rewrite Ht. cbn [kind].
    by apply unmarshalSlice_strings.
  - apply (field_store_eq attrV). unfold load. simpl. by rewrite Hold.
  - unfold result, appended. by rewrite length_app, length_map.
  - intros k nd Hk. unfold result. rewrite lookup_app_r by lia.
    replace (length (default [] old) + k - length (default [] old)) with k by lia.
    unfold appended. by rewrite list_lookup_fmap, Hk.
  - intros k x Hk. unfold result. by apply lookup_app_l_Some.
  - intros ->. unfold result, appended. simpl. by rewrite length_map.
Qed.

(** C9: when the element type of a sequence field is not of kind string,
    the error is returned after the storage of the field has been set up: a
    field that was nil holds an empty sequence that is not nil when [Decode]
    returns the error. *)
Theorem unsupported_element_initialises_sequence n s p pre attrT post e h :
  CanSet attrT = true →
  Typ attrT = TSlice e →
  kind e ≠ String_ →
  field h p (length pre) = Some (VSlice None) →
  (fields_loop (UnmarshalHTML n) s p pre 0 h).1 = Nil →
  ∃ h',
    UnmarshalHTML (S n) (pointer_to (TStruct (pre ++ attrT :: post)) p) s h
      = (Err "Invalid slice type", h') ∧
    field h' p (length pre) = Some (VSlice (Some [])) ∧
    field h' p (length pre) ≠ field h p (length pre).
Proof.
  intros Hset Ht He Hnil Hpre.
  pose proof (prefix_keeps_later_fields n s p pre h (length pre)
                (field_Some_dom _ _ _ _ Hnil) (Nat.le_refl _)) as Hkept.
  destruct (fields_loop (UnmarshalHTML n) s p pre 0 h) as [o h1] eqn:Hloop.
  simpl in Hpre, Hkept. subst o. rewrite Hnil in Hkept.
  exists (store (mkValue p (length pre) (Typ attrT)) MakeSlice_0_0 h1).
  assert (field (store (mkValue p (length pre) (Typ attrT)) MakeSlice_0_0 h1)
            p (length pre) = Some (VSlice (Some []))) as Hfield.
  { apply (field_store_eq (mkValue p (length pre) (Typ attrT))).
    unfold load. simpl. by rewrite Hkept. }
  split; [|split; [done|by rewrite Hfield, Hnil]].
  rewrite (UnmarshalHTML_at_field n s p pre attrT post h h1) by done.
  unfold unmarshalAttr. cbn [vtype]. rewrite Ht. cbn [kind].
  unfold unmarshalSlice, Pointer_is_0, load. cbn [vtype base fidx Elem].
  rewrite Hkept. destruct (kind e); done.
Qed.

(** ** Unsupported field types *)

(** C5, as the code has it: a settable field whose kind is none of string,
    slice, struct and pointer, reached after the fields before it decoded
    without error, makes [Decode] return the error "Invalid type: <T Value>"
    where T is the type of the field; the message is built from the type
    alone.  The store is then the one the earlier fields left: they keep
    the values assigned to them, and no field after the offending one is
    decoded. *)
Theorem unsupported_field_aborts n s p pre attrT post h :
  CanSet attrT = true →
  kind (Typ attrT) = OtherKind →
  (fields_loop (UnmarshalHTML n) s p pre 0 h).1 = Nil →
  UnmarshalHTML (S n) (pointer_to (TStruct (pre ++ attrT :: post)) p) s h
    = (Err ("Invalid type: <" +:+ Type_String (Typ attrT) +:+ " Value>"),
       (fields_loop (UnmarshalHTML n) s p pre 0 h).2).
Proof.
  intros Hset Hk Hpre.
  destruct (fields_loop (UnmarshalHTML n) s p pre 0 h) as [o h1] eqn:Hloop.
  simpl in Hpre. subst o.
  rewrite (UnmarshalHTML_at_field n s p pre attrT post h h1) by done.
  unfold unmarshalAttr. cbn [vtype]. by rewrite Hk.
Qed.

(** ** Selectors that match nothing *)

Lemma unmarshalAttr_absent rec s p i attrT x h :
  supported (Typ attrT) = true →
  Nodes (search_scope s attrT) = None →
  field h p i = Some x →
  of_kind x (Typ attrT) = true →
  unmarshalAttr rec s (mkValue p i (Typ attrT)) attrT h =
  (Nil, store (mkValue p i (Typ attrT)) (absent_value (Typ attrT) x) h).
Proof.
  intros Hsup Hnil Hx Hkind. unfold search_scope in Hnil.
  destruct (Typ attrT) as [[]|[[]| | | |]|[| | |fs|]|fs|] eqn:Ht;
    try discriminate Hsup; simpl in Hnil.
  - (* string *)
    unfold unmarshalAttr. cbn [vtype kind assignable_from_string absent_value].
    rewrite getDOMValue_no_nodes; [done|]. by apply Find_nil_iff.
  - (* []string *)
    destruct x as [|old| | |]; try discriminate Hkind.
    unfold unmarshalAttr. cbn [vtype kind].
    rewrite (unmarshalSlice_strings _ _ _ _ old) by done.
    apply Find_nil_iff in Hnil. rewrite Hnil. simpl. rewrite app_nil_r.
    by destruct old.
  - (* *struct *)
    rewrite (unmarshalAttr_absent_nested rec s _ attrT h); [|by right|done].
    rewrite store_id; [done|]. by unfold load.
  - (* struct *)
    rewrite (unmarshalAttr_absent_nested rec s _ attrT h); [|by left|done].
    rewrite store_id; [done|]. by unfold load.
Qed.

Lemma fields_loop_absent rec s p fs :
  ∀ done rest h,
    h !! p = Some (VStruct (done ++ rest)) →
    Forall2 (fun x attrT => of_kind x (Typ attrT) = true) rest fs →
    Forall (fun attrT => CanSet attrT = true →
              supported (Typ attrT) = true ∧
              Nodes (search_scope s attrT) = None) fs →
    fields_loop rec s p fs (length done) h =
    (Nil, <[p := VStruct (done ++ zip_with absent_effect fs rest)]> h).
Proof.
  induction fs as [|attrT fs IH]; intros done rest h Hp Hty Habs.
  - apply Forall2_nil_inv_r in Hty as ->. simpl. by rewrite insert_id.
  - apply Forall2_cons_inv_r in Hty as (x & rest' & Hx & Hty & ->).
    apply Forall_cons in Habs as [Hhere Habs].
    assert (S (length done) = length (done ++ [x])) as Hlen
      by (rewrite length_app; simpl; lia).
    cbn [fields_loop zip_with]. unfold absent_effect at 1.
    destruct (CanSet attrT) eqn:Hset; cbn [negb].
    + destruct Hhere as [Hsup Hnil]; [done|].
      rewrite (unmarshalAttr_absent rec s p (length done) attrT x h); try done.
      2:{ unfold field. rewrite Hp. by rewrite list_lookup_middle. }
      rewrite (store_struct (mkValue p (length done) (Typ attrT)) _ h _ Hp).
      cbn [base fidx].
      rewrite insert_app_r_alt by lia. rewrite Nat.sub_diag. cbn [insert list_insert].
      set (y := absent_value (Typ attrT) x).
      replace (S (length done)) with (length (done ++ [y]))
        by (rewrite length_app; simpl; lia).
      rewrite (IH (done ++ [y]) rest'); [|by rewrite lookup_insert_eq, <- app_assoc|done..].
      by rewrite insert_insert_eq, <- app_assoc.
    + rewrite Hlen. rewrite (IH (done ++ [x]) rest' h); [|by rewrite <- app_assoc|done..].
      by rewrite <- app_assoc.
Qed.

(** C2, as the code has it: a settable field of one of the four supported
    types whose search scope holds no nodes (the node slice is nil, which is
    what [Find] returns when nothing matches) is decoded without error,
    whatever the rest of the record is: a string field then holds the empty
    string, a sequence field that was nil holds an empty sequence that is not
    nil, a sequence field that was not nil keeps its elements, and a nested
    record, by value or by reference, holds what it held.  When this is so
    for every settable field of a record, [Decode] returns no error and the
    record holds these values, the fields that cannot be set being
    unchanged. *)
Theorem absent_nodes_are_no_error n s p fs vals h :
  (∀ rec i attrT x h0,
     supported (Typ attrT) = true →
     Nodes (search_scope s attrT) = None →
     field h0 p i = Some x →
     of_kind x (Typ attrT) = true →
     unmarshalAttr rec s (mkValue p i (Typ attrT)) attrT h0 =
     (Nil, store (mkValue p i (Typ attrT)) (absent_value (Typ attrT) x) h0)) ∧
  (h !! p = Some (VStruct vals) →
   Forall2 (fun x attrT => of_kind x (Typ attrT) = true) vals fs →
   Forall (fun attrT => CanSet attrT = true →
             supported (Typ attrT) = true ∧
             Nodes (search_scope s attrT) = None) fs →
   UnmarshalHTML (S n) (pointer_to (TStruct fs) p) s h =
   (Nil, <[p := VStruct (zip_with absent_effect fs vals)]> h)).
Proof.
  split.
  - intros rec i attrT x h0. apply unmarshalAttr_absent.
  - intros Hp Hty Habs. simpl.
    by rewrite (fields_loop_absent _ s p fs [] vals h).
Qed.

(** ** The fields a call writes *)

(** A string field that was decoded without error holds the extracted
    value once the whole record is decoded. *)
Lemma fields_loop_string_set n s p fs :
  ∀ i h k attrT,
    p ∈ dom h →
    fs !! k = Some attrT → CanSet attrT = true → Typ attrT = TString false →
    is_Some (field h p (i + k)) →
    (fields_loop (UnmarshalHTML n) s p fs i h).1 = Nil →
    field (fields_loop (UnmarshalHTML n) s p fs i h).2 p (i + k) =
    Some (VString (getDOMValue (Find s (tag_selector attrT)) (tag_attr attrT))).
Proof.
  induction fs as [|attrT0 fs IH]; intros i h k attrT Hp Hk Hset Ht Hsome Hnil;
    [done|].
  destruct k as [|k]; simpl in Hk.
  - injection Hk as ->. rewrite Nat.add_0_r in *. simpl in *.
    rewrite Hset in *. simpl in *.
    unfold unmarshalAttr in *. cbn [vtype] in *. rewrite Ht in *.
    cbn [kind assignable_from_string] in *.
    rewrite fields_loop_field_kept.
    + apply (field_store_eq (mkValue p i (TString false))). done.
    + apply UnmarshalHTML_cells_kept.
    + by rewrite dom_store.
    + intros k' ? _ ?. lia.
  - replace (i + S k) with (S i + k) in * by lia. simpl in *.
    destruct (CanSet attrT0); simpl in *; [|by apply (IH (S i))].
    pose proof (unmarshalAttr_cells_kept _ (UnmarshalHTML_cells_kept n) s
                  (mkValue p i (Typ attrT0)) attrT0 h) as [Hd _].
    pose proof (unmarshalAttr_field_kept _ (UnmarshalHTML_cells_kept n) s
                  (mkValue p i (Typ attrT0)) attrT0 h (S i + k) Hp) as Hkept.
    destruct (unmarshalAttr _ _ _ _ h) as [[] h1]; simpl in *; try done.
    apply (IH (S i)); try done; [set_solver|]. simpl. rewrite Hkept; [done|lia].
Qed.

(** C7, as the code has it, for a destination whose settable sequence
    fields are nil before the call (so that no append of the decoder reaches
    an array the caller holds): [Decode] writes to the settable fields of
    the destination record and to the records it allocates, and to nothing
    else.  Every other location of the caller keeps its content; a field
    that cannot be set is skipped and keeps its value, and a record with
    only such fields is decoded without error and without any change; a
    nested record, by value or by reference, the node slice of whose
    narrowed scope is nil keeps the value the caller stored in it.  A
    settable string field does not: when [Decode] has returned without
    error it holds the value extracted for its selector, which is the empty
    string when the selector matches no node. *)
Theorem decoder_writes_only_resolved_fields n s p fs h :
  p ∈ dom h →
  sequences_unset fs p h →
  let r := UnmarshalHTML (S n) (pointer_to (TStruct fs) p) s h in
  (∀ l, l ∈ dom h → l ≠ p → r.2 !! l = h !! l) ∧
  (∀ i attrT, fs !! i = Some attrT → untouched s attrT →
     field r.2 p i = field h p i) ∧
  (Forall (fun attrT => CanSet attrT = false) fs → r = (Nil, h)) ∧
  (∀ i attrT, fs !! i = Some attrT →
     CanSet attrT = true → Typ attrT = TString false →
     is_Some (field h p i) → r.1 = Nil →
     field r.2 p i =
       Some (VString (getDOMValue (Find s (tag_selector attrT)) (tag_attr attrT))) ∧
     (nodes (Find s (tag_selector attrT)) = [] → field r.2 p i = Some (VString ""))).
Proof.
  intros Hp _ r. subst r. simpl. split; [|split; [|split]].
  - intros l Hl Hne.
    destruct (fields_loop_cells_kept _ (UnmarshalHTML_cells_kept n) s p fs 0 h)
      as [_ Hk].
    apply Hk; [done|congruence].
  - intros i attrT Hi Hun.
    apply fields_loop_field_kept; [apply UnmarshalHTML_cells_kept|done|].
    intros k attrT' Hk ->. simpl in Hi. congruence.
  - intros Hall. by apply fields_loop_unsettable.
  - intros i attrT Hi Hset Ht Hsome Hnil.
    pose proof (fields_loop_string_set n s p fs 0 h i attrT Hp Hi Hset Ht Hsome Hnil)
      as Hfield.
    simpl in Hfield. split; [done|].
    intros Hnone. by rewrite Hfield, getDOMValue_no_nodes.
Qed.

(** ** Nested records *)

Lemma unmarshalAttr_nested rec s attrV attrT fs' h :
  nested_record (vtype attrV) = Some fs' →
  nodes (narrow s (tag_selector attrT)) ≠ [] →
  unmarshalAttr rec s attrV attrT h =
  let v := fresh (dom h) in
  match rec (pointer_to (TStruct fs') v) (narrow s (tag_selector attrT))
            (<[v := zero (TStruct fs')]> h) with
  | (Nil, h2) =>
      (Nil, store attrV (match vtype attrV with
                         | TPtr _ => VPtr (Some v)
                         | _ => Indirect v h2
                         end) h2)
  | err => err
  end.
Proof.
  intros Hnested Hnodes. unfold unmarshalAttr.
  assert (∃ ns, Nodes (narrow s (tag_selector attrT)) = Some ns) as [ns Hns].
  { unfold nodes in Hnodes. destruct (Nodes _); [eauto|done]. }
  destruct (vtype attrV) as [| |[]| |] eqn:Ht; try discriminate Hnested;
    injection Hnested as ->; cbn [kind].
  - unfold unmarshalPtr. rewrite Hns, Ht. cbn [Elem kind].
    rewrite decide_False by (intros Hne; by apply Hne). done.
  - unfold unmarshalStruct. rewrite Hns, Ht. done.
Qed.

(** C8: a settable nested record whose scope holds at least one node is
    decoded by a recursive call on a freshly allocated record, in the scope
    narrowed by the selector, which is the current scope itself when the
    selector is empty.  Whatever the recursive call returns that is not
    nil is what the whole [Decode] returns, with the store as the recursive
    call left it: no later field is decoded.  When it returns nil, a
    by-value field is assigned the record stored in the fresh location (a
    record value, not the pointer), a by-reference field the pointer to the
    fresh location, and decoding goes on with the next field; the field
    holds that value when [Decode] returns. *)
Theorem nested_record_decoding n s p pre attrT post fs' h :
  CanSet attrT = true →
  nested_record (Typ attrT) = Some fs' →
  nodes (narrow s (tag_selector attrT)) ≠ [] →
  is_Some (field h p (length pre)) →
  (fields_loop (UnmarshalHTML n) s p pre 0 h).1 = Nil →
  let h1 := (fields_loop (UnmarshalHTML n) s p pre 0 h).2 in
  let newS := narrow s (tag_selector attrT) in
  let v := fresh (dom h1) in
  let r := UnmarshalHTML n (pointer_to (TStruct fs') v) newS
             (<[v := zero (TStruct fs')]> h1) in
  let attrV := mkValue p (length pre) (Typ attrT) in
  let whole :=
    UnmarshalHTML (S n) (pointer_to (TStruct (pre ++ attrT :: post)) p) s h in
  (tag_selector attrT = "" → newS = s) ∧
  h1 !! v = None ∧
  (r.1 ≠ Nil → whole = r) ∧
  (r.1 = Nil →
     ∃ vals assigned,
       r.2 !! v = Some (VStruct vals) ∧ length vals = length fs' ∧
       assigned = match Typ attrT with
                  | TPtr _ => VPtr (Some v)
                  | _ => VStruct vals
                  end ∧
       whole = fields_loop (UnmarshalHTML n) s p post (S (length pre))
                 (store attrV assigned r.2) ∧
       field whole.2 p (length pre) = Some assigned).
Proof.
  intros Hset Hnested Hnodes Hsome Hpre h1 newS v r attrV whole.
  assert (p ∈ dom h) as Hp.
  { destruct Hsome as [x Hx]. by eapply field_Some_dom. }
  destruct (fields_loop_cells_kept _ (UnmarshalHTML_cells_kept n) s p pre 0 h)
    as [Hdom1 _]. fold h1 in Hdom1.
  assert (h1 !! v = None) as Hfresh by apply fresh_not_in_heap.
  assert (p ≠ v) as Hpv.
  { intros Heq. apply not_elem_of_dom in Hfresh. rewrite <- Heq in Hfresh.
    set_solver. }
  assert (whole = match r with
                  | (Nil, h2) =>
                      fields_loop (UnmarshalHTML n) s p post (S (length pre))
                        (store attrV (match Typ attrT with
                                      | TPtr _ => VPtr (Some v)
                                      | _ => Indirect v h2
                                      end) h2)
                  | err => err
                  end) as Hwhole.
  { unfold whole.
    rewrite (UnmarshalHTML_at_field n s p pre attrT post h h1);
      [|by apply injective_projections|done].
    rewrite (unmarshalAttr_nested _ s _ attrT fs') by done.
    cbv zeta. fold v newS r. cbn [vtype]. fold attrV. by destruct r as [[] h2]. }
  split; [|split; [done|split]].
  - intros Hsel. unfold newS, narrow. rewrite Hsel. by rewrite decide_False by auto.
  - intros Herr. rewrite Hwhole. by destruct r as [[] h2].
  - intros Hnil.
    destruct (UnmarshalHTML_records_kept n (pointer_to (TStruct fs') v) newS
                (<[v := zero (TStruct fs')]> h1) v (map (fun f => zero (Typ f)) fs'))
      as (vals & Hvals & Hlen); [by rewrite lookup_insert_eq|].
    fold r in Hvals. rewrite length_map in Hlen.
    exists vals. eexists. split; [done|split; [done|split; [done|]]].
    assert (field r.2 p (length pre) = field h p (length pre)) as Hkept.
    { destruct (UnmarshalHTML_cells_kept n (pointer_to (TStruct fs') v) newS
                  (<[v := zero (TStruct fs')]> h1)) as [_ Hk]. fold r in Hk.
      transitivity (field h1 p (length pre));
        [|by apply prefix_keeps_later_fields].
      transitivity (field (<[v := zero (TStruct fs')]> h1) p (length pre)).
      - apply field_cell_eq, Hk; [|simpl; congruence].
        rewrite dom_insert_L. set_solver.
      - apply field_cell_eq. by rewrite lookup_insert_ne. }
    assert (whole = fields_loop (UnmarshalHTML n) s p post (S (length pre))
              (store attrV (match Typ attrT with
                            | TPtr _ => VPtr (Some v)
                            | _ => VStruct vals
                            end) r.2)) as Hrun.
    { rewrite Hwhole. destruct r as [o h2]. simpl in Hnil, Hvals. subst o.
      unfold Indirect. by rewrite Hvals. }
    split; [done|]. rewrite Hrun.
    rewrite fields_loop_field_kept.
    + apply (field_store_eq attrV). unfold load. simpl. by rewrite Hkept.
    + apply UnmarshalHTML_cells_kept.
    + rewrite dom_store.
      destruct (UnmarshalHTML_cells_kept n (pointer_to (TStruct fs') v) newS
                  (<[v := zero (TStruct fs')]> h1)) as [Hd _]. fold r in Hd.
      rewrite dom_insert_L in Hd. set_solver.
    + intros k ? _ ?. lia.
Qed.

(** ** What the outcome depends on *)

Lemma fields_loop_same_outcome rec s1 s2 p1 p2 fs :
  Forall (fun attrT => CanSet attrT = true →
            ∀ i1 i2 h1 h2,
              (unmarshalAttr rec s1 (mkValue p1 i1 (Typ attrT)) attrT h1).1 =
              (unmarshalAttr rec s2 (mkValue p2 i2 (Typ attrT)) attrT h2).1) fs →
  ∀ i1 i2 h1 h2,
    (fields_loop rec s1 p1 fs i1 h1).1 = (fields_loop rec s2 p2 fs i2 h2).1.
Proof.
  induction 1 as [|attrT fs Hhere _ IH]; intros i1 i2 h1 h2; simpl; [done|].
  destruct (CanSet attrT); simpl; [|apply IH].
  specialize (Hhere eq_refl i1 i2 h1 h2).
  destruct (unmarshalAttr rec s1 _ attrT h1) as [o1 h1'].
  destruct (unmarshalAttr rec s2 _ attrT h2) as [o2 h2'].
  simpl in Hhere. subst o2. destruct o1; simpl; [apply IH|done..].
Qed.

Lemma same_absences_outcome n :
  ∀ fs s1 s2, same_absences fs s1 s2 →
  ∀ p1 p2 h1 h2,
    (UnmarshalHTML n (pointer_to (TStruct fs) p1) s1 h1).1 =
    (UnmarshalHTML n (pointer_to (TStruct fs) p2) s2 h2).1.
Proof.
  induction n as [|n IH]; intros fs s1 s2 Hsame p1 p2 h1 h2; simpl; [done|].
  destruct Hsame as [fs s1 s2 Hnil Hnested Hseq].
  apply fields_loop_same_outcome. apply Forall_forall.
  intros attrT Hin Hset i1 i2 h1' h2'.
  specialize (Hnil attrT Hin Hset). specialize (Hseq attrT Hin Hset).
  specialize (fun fs' => Hnested attrT fs' Hin Hset).
  unfold unmarshalAttr. cbn [vtype].
  destruct (Typ attrT) as [d|e|e|fs'|str] eqn:Ht; cbn [kind].
  - by destruct d.
  - rewrite !unmarshalSlice_outcome. cbn [vtype Elem].
    destruct e as [[]| | | |]; try done.
    specialize (Hseq eq_refl).
    destruct (nodes (Find s1 _)), (nodes (Find s2 _)); try done.
    + by destruct Hseq as [Hseq _]; specialize (Hseq eq_refl).
    + by destruct Hseq as [_ Hseq]; specialize (Hseq eq_refl).
  - unfold unmarshalPtr. cbn [vtype Elem].
    specialize (Hnil (or_intror eq_refl)).
    destruct (Nodes (narrow s1 _)) as [ns1|] eqn:H1,
             (Nodes (narrow s2 _)) as [ns2|] eqn:H2; try done.
    + case_decide; [done|].
      destruct e as [| | |fs'|]; try done.
      specialize (Hnested fs' eq_refl ltac:(done)).
      destruct (New (TStruct fs') h1') as [v1 h1''].
      destruct (New (TStruct fs') h2') as [v2 h2''].
      specialize (IH fs' _ _ Hnested v1 v2 h1'' h2'').
      destruct (UnmarshalHTML n _ _ h1'') as [o1 ?].
      destruct (UnmarshalHTML n _ _ h2'') as [o2 ?].
      simpl in IH. subst o2. by destruct o1.
    + by destruct Hnil as [_ Hnil]; specialize (Hnil eq_refl).
    + by destruct Hnil as [Hnil _]; specialize (Hnil eq_refl).
  - unfold unmarshalStruct. cbn [vtype].
    specialize (Hnil (or_introl eq_refl)).
    destruct (Nodes (narrow s1 _)) as [ns1|] eqn:H1,
             (Nodes (narrow s2 _)) as [ns2|] eqn:H2; try done.
    + specialize (Hnested fs' eq_refl ltac:(done)).
      destruct (New (TStruct fs') h1') as [v1 h1''].
      destruct (New (TStruct fs') h2') as [v2 h2''].
      specialize (IH fs' _ _ Hnested v1 v2 h1'' h2'').
      destruct (UnmarshalHTML n _ _ h1'') as [o1 ?].
      destruct (UnmarshalHTML n _ _ h2'') as [o2 ?].
      simpl in IH. subst o2. by destruct o1.
    + by destruct Hnil as [_ Hnil]; specialize (Hnil eq_refl).
    + by destruct Hnil as [Hnil _]; specialize (Hnil eq_refl).
  - done.
Qed.



(** Every scope agrees with itself. *)
Lemma same_absences_refl n : ∀ fs s, depth (TStruct fs) ≤ n → same_absences fs s s.
Proof.
  induction n as [|n IH]; intros fs s Hn; [simpl in Hn; lia|].
  constructor; [done| |done].
  intros attrT fs' Hin _ Hnested _. apply IH.
  pose proof (depth_field attrT fs Hin) as Hd.
  assert (depth (TStruct fs') ≤ depth (Typ attrT)); [|lia].
  destruct (Typ attrT) as [| |[]| |]; try discriminate Hnested;
    injection Hnested as ->; simpl; lia.
Qed.

End properties.

(** * Further properties of unmarshal.go *)

Section further_properties.
Context `{Goquery}.
Implicit Types (h : heap) (s : Selection) (attrV : Value) (attrT : StructField)
  (p l : loc) (n fuel : nat) (o : outcome).

(** ** The destination and the fuel *)

(** X1: [UnmarshalHTML] returns the error "Invalid type or nil-pointer", and
    leaves the store as it is, for the nil interface, for a value that is not
    a pointer and for a nil pointer; for a pointer that is not nil it never
    returns this error, whatever happens in the nested records. *)
Theorem invalid_destination n s h :
  UnmarshalHTML (S n) None s h = (Err "Invalid type or nil-pointer", h) ∧
  (∀ t x, kind t ≠ Ptr →
     UnmarshalHTML (S n) (Some (t, x)) s h = (Err "Invalid type or nil-pointer", h)) ∧
  (∀ t, UnmarshalHTML (S n) (Some (TPtr t, VPtr None)) s h
        = (Err "Invalid type or nil-pointer", h)) ∧
  (∀ fuel t p, (UnmarshalHTML fuel (pointer_to t p) s h).1
               ≠ Err "Invalid type or nil-pointer").
Proof.
  split; [done|split; [|split; [done|]]].
  - intros t x Ht. apply UnmarshalHTML_no_target. by destruct t.
  - intros fuel t p. apply UnmarshalHTML_pointer_not_invalid_target.
Qed.

(** X2: the recursion of the decoder is bounded by the nesting depth of the
    type of the destination: with any fuel above that depth the run is the
    one of [Decode], and it does not run out of fuel. *)
Theorem fuel_above_depth_suffices n t p s h :
  depth t < n →
  UnmarshalHTML n (pointer_to t p) s h = Decode (pointer_to t p) s h ∧
  (UnmarshalHTML n (pointer_to t p) s h).1 ≠ Panic stack_exhausted.
Proof.
  intros Hn. split; [|by apply UnmarshalHTML_terminates].
  unfold Decode. apply UnmarshalHTML_fuel; simpl; lia.
Qed.

(** ** The errors *)

Lemma unmarshalAttr_known_error rec s attrV attrT h msg :
  (∀ v s' h' msg', (rec v s' h').1 = Err msg' → known_error msg') →
  (unmarshalAttr rec s attrV attrT h).1 = Err msg → known_error msg.
Proof.
  intros Hrec. unfold unmarshalAttr. destruct (kind (vtype attrV)).
  - intros [= <-]. right. right. by eexists.
  - unfold unmarshalPtr. destruct (Nodes _); [|done].
    destruct (Elem _) as [e|]; [|done].
    case_decide; [intros [= <-]; right; by left|].
    destruct (New e h) as [v h1].
    specialize (Hrec (pointer_to e v) (narrow s (tag_selector attrT)) h1).
    destruct (rec _ _ h1) as [[] h2]; simpl in *; try done. apply Hrec.
  - rewrite unmarshalSlice_outcome.
    destruct (Elem _) as [[[]| | | |]|]; try done;
      try (intros [= <-]; right; by left).
    by destruct (nodes _).
  - by destruct (assignable_from_string _).
  - unfold unmarshalStruct. destruct (Nodes _); [|done].
    destruct (New (vtype attrV) h) as [v h1].
    specialize (Hrec (pointer_to (vtype attrV) v) (narrow s (tag_selector attrT)) h1).
    destruct (rec _ _ h1) as [[] h2]; simpl in *; try done. apply Hrec.
  - intros [= <-]. right. right. by eexists.
Qed.

Lemma fields_loop_known_error rec s p fs :
  (∀ v s' h' msg', (rec v s' h').1 = Err msg' → known_error msg') →
  ∀ i h msg, (fields_loop rec s p fs i h).1 = Err msg → known_error msg.
Proof.
  intros Hrec. induction fs as [|attrT fs IH]; intros i h msg; simpl; [done|].
  destruct (CanSet attrT); simpl; [|apply IH].
  pose proof (unmarshalAttr_known_error rec s (mkValue p i (Typ attrT)) attrT h)
    as Hstep.
  destruct (unmarshalAttr _ _ _ _ h) as [[] h1]; simpl in *; try done.
  - apply IH.
  - by apply Hstep.
Qed.

(** X3: the errors [UnmarshalHTML] returns, at any depth of nesting, are
    "Invalid type or nil-pointer", "Invalid slice type" and
    "Invalid type: <T Value>" for the printed form T of a type; an error of a
    nested record reaches the caller as one of these, unchanged. *)
Theorem errors_are_known n v s h msg :
  (UnmarshalHTML n v s h).1 = Err msg → known_error msg.
Proof.
  revert v s h msg. induction n as [|n IH]; intros v s h msg; simpl; [done|].
  unfold UnmarshalHTML_body.
  destruct v as [[[] []]|]; try (intros [= <-]; by left).
  destruct target0 as [p|]; [|intros [= <-]; by left].
  destruct elem; try done. by apply fields_loop_known_error.
Qed.

(** ** Panics *)

Lemma plain_field attrT fs :
  plain (TStruct fs) = true → attrT ∈ fs → plain (Typ attrT) = true.
Proof.
  simpl. rewrite forallb_forall. intros Hall Hin. apply Hall.
  by apply list_elem_of_In.
Qed.

Lemma unmarshalAttr_no_panic rec s attrV attrT h pk :
  plain (vtype attrV) = true →
  (∀ fs l s' h',
     vtype attrV = TStruct fs ∨ vtype attrV = TPtr (TStruct fs) →
     (rec (pointer_to (TStruct fs) l) s' h').1 ≠ Panic pk) →
  (unmarshalAttr rec s attrV attrT h).1 ≠ Panic pk.
Proof.
  intros Hplain Hrec. unfold unmarshalAttr.
  destruct (vtype attrV) as [[]|e|e|fs|str] eqn:Ht; cbn [kind]; try done.
  - rewrite unmarshalSlice_outcome, Ht. cbn [Elem].
    by destruct e as [[]| | | |].
  - unfold unmarshalPtr. destruct (Nodes _); [|done]. rewrite Ht. cbn [Elem].
    case_decide; [done|]. destruct e as [| | |fs|]; try done.
    destruct (New (TStruct fs) h) as [v h1].
    specialize (Hrec fs v (narrow s (tag_selector attrT)) h1 (or_intror eq_refl)).
    by destruct (rec _ _ h1) as [[] h2].
  - unfold unmarshalStruct. destruct (Nodes _); [|done]. rewrite Ht.
    destruct (New (TStruct fs) h) as [v h1].
    specialize (Hrec fs v (narrow s (tag_selector attrT)) h1 (or_introl eq_refl)).
    by destruct (rec _ _ h1) as [[] h2].
Qed.

(** X4: in a scope that is not the nil pointer, decoding into a record
    whose type does not refer to itself and in which no defined string type
    occurs does not panic: with fuel above the depth of the type,
    [UnmarshalHTML] on a pointer to such a record returns nil or an error.
    (A [Selection] of this model is never the nil pointer, a [Type_] never
    refers to itself.) *)
Theorem plain_record_never_panics n fs p s h :
  plain (TStruct fs) = true →
  depth (TStruct fs) < n →
  (UnmarshalHTML n (pointer_to (TStruct fs) p) s h).1 = Nil ∨
  ∃ msg, (UnmarshalHTML n (pointer_to (TStruct fs) p) s h).1 = Err msg.
Proof.
  intros Hplain Hn.
  assert (∀ pk, (UnmarshalHTML n (pointer_to (TStruct fs) p) s h).1 ≠ Panic pk)
    as Hno.
  { clear -Hplain Hn. revert fs p s h Hplain Hn.
    induction n as [|n IH]; intros fs p s h Hplain Hn pk; [lia|]. simpl.
    assert (∀ attrT, attrT ∈ fs →
              plain (Typ attrT) = true ∧ depth (Typ attrT) < n) as Hfs.
    { intros attrT Hin. split; [by eapply plain_field|].
      pose proof (depth_field attrT fs Hin). lia. }
    clear Hplain Hn. generalize 0 as i. revert h.
    induction fs as [|attrT fs IHfs]; intros h i; simpl; [done|].
    assert (∀ h i, (fields_loop (UnmarshalHTML n) s p fs i h).1 ≠ Panic pk)
      as Hrest.
    { apply IHfs. intros attrT' Hin. apply Hfs. by right. }
    destruct (CanSet attrT); simpl; [|apply Hrest].
    destruct (Hfs attrT ltac:(left)) as [Hp Hd].
    assert ((unmarshalAttr (UnmarshalHTML n) s (mkValue p i (Typ attrT)) attrT h).1
            ≠ Panic pk) as Hstep.
    { apply unmarshalAttr_no_panic; [done|]. cbn [vtype].
      intros fs' l s' h' Ht. apply IH.
      - destruct Ht as [Ht|Ht]; rewrite Ht in Hp; exact Hp.
      - destruct Ht as [Ht|Ht]; rewrite Ht in Hd; simpl in *; lia. }
    destruct (unmarshalAttr _ _ _ _ h) as [[] h1]; simpl in *; [apply Hrest|done..]. }
  destruct (UnmarshalHTML n _ s h).1 as [|msg|pk]; [by left|right; by eexists|].
  by destruct (Hno pk).
Qed.

(** X5: a settable field of a defined string type makes the decoder panic
    in [reflect.Set], whatever the document holds, since the extracted value
    is of type string; a sequence of a defined string type does so as soon as
    its selector matches a node, and is decoded without error when it
    matches none. *)
Theorem defined_string_type_panics n s p pre attrT post h :
  CanSet attrT = true →
  (fields_loop (UnmarshalHTML n) s p pre 0 h).1 = Nil →
  let h1 := (fields_loop (UnmarshalHTML n) s p pre 0 h).2 in
  let whole :=
    UnmarshalHTML (S n) (pointer_to (TStruct (pre ++ attrT :: post)) p) s h in
  (Typ attrT = TString true → whole = (Panic Set_not_assignable, h1)) ∧
  (Typ attrT = TSlice (TString true) →
     nodes (Find s (tag_selector attrT)) ≠ [] →
     whole.1 = Panic Set_not_assignable) ∧
  (Typ attrT = TSlice (TString true) →
     nodes (Find s (tag_selector attrT)) = [] →
     (unmarshalAttr (UnmarshalHTML n) s
        (mkValue p (length pre) (Typ attrT)) attrT h1).1 = Nil).
Proof.
  intros Hset Hpre h1 whole.
  assert (whole = match unmarshalAttr (UnmarshalHTML n) s
                          (mkValue p (length pre) (Typ attrT)) attrT h1 with
                  | (Nil, h2) =>
                      fields_loop (UnmarshalHTML n) s p post (S (length pre)) h2
                  | err => err
                  end) as Hwhole.
  { unfold whole. apply UnmarshalHTML_at_field; [|done].
    by apply injective_projections. }
  split; [|split].
  - intros Ht. rewrite Hwhole. unfold unmarshalAttr. cbn [vtype]. by rewrite Ht.
  - intros Ht Hnodes. rewrite Hwhole.
    pose proof (unmarshalSlice_outcome s (tag_selector attrT) (tag_attr attrT)
                  (mkValue p (length pre) (Typ attrT)) h1) as Hout.
    unfold unmarshalAttr. cbn [vtype] in *. rewrite Ht in *. cbn [kind Elem] in *.
    destruct (unmarshalSlice _ _ _ _ h1) as [o h2]. simpl in Hout. subst o.
    by destruct (nodes _).
  - intros Ht Hnodes.
    pose proof (unmarshalSlice_outcome s (tag_selector attrT) (tag_attr attrT)
                  (mkValue p (length pre) (Typ attrT)) h1) as Hout.
    unfold unmarshalAttr. cbn [vtype] in *. rewrite Ht in *. cbn [kind Elem] in *.
    by rewrite Hout, Hnodes.
Qed.

(** ** The first field that fails *)

(** X6: [UnmarshalHTML] returns what the first settable field that does
    not decode with nil returns, be it an error or a panic, with the store
    as that field left it: the fields after it are not decoded and, whatever
    they are, have no influence on the result. *)
Theorem first_failure_aborts n s p pre attrT post h :
  CanSet attrT = true →
  (fields_loop (UnmarshalHTML n) s p pre 0 h).1 = Nil →
  let h1 := (fields_loop (UnmarshalHTML n) s p pre 0 h).2 in
  let step := unmarshalAttr (UnmarshalHTML n) s
                (mkValue p (length pre) (Typ attrT)) attrT h1 in
  step.1 ≠ Nil →
  UnmarshalHTML (S n) (pointer_to (TStruct (pre ++ attrT :: post)) p) s h = step.
Proof.
  intros Hset Hpre h1 step Hfail.
  rewrite (UnmarshalHTML_at_field n s p pre attrT post h h1);
    [|by apply injective_projections|done].
  fold step. by destruct step as [[] h2].
Qed.

(** X7: a nested record, by value or by reference, that fails to decode
    leaves every location of the store as it was, the record that holds the
    field included: nothing of the partly decoded nested record is
    assigned. *)
Theorem failed_nested_decode_leaves_store n s attrV attrT h :
  kind (vtype attrV) = Struct ∨ kind (vtype attrV) = Ptr →
  (unmarshalAttr (UnmarshalHTML n) s attrV attrT h).1 ≠ Nil →
  ∀ l, l ∈ dom h →
    (unmarshalAttr (UnmarshalHTML n) s attrV attrT h).2 !! l = h !! l.
Proof.
  intros Hk Hfail l Hl. revert Hfail. unfold unmarshalAttr.
  destruct Hk as [Hk|Hk]; rewrite Hk.
  - unfold unmarshalStruct. destruct (Nodes _); [|done].
    destruct (fresh_call_cells_kept _ (UnmarshalHTML_cells_kept n) (vtype attrV)
                (narrow s (tag_selector attrT)) h) as [_ Hcall].
    specialize (Hcall l Hl). destruct (New (vtype attrV) h) as [v h1].
    simpl in Hcall. destruct (UnmarshalHTML n _ _ h1) as [[] h2]; simpl in *;
      intros; by auto.
  - unfold unmarshalPtr. destruct (Nodes _); [|done].
    destruct (Elem _) as [e|]; [|done]. case_decide; [done|].
    destruct (fresh_call_cells_kept _ (UnmarshalHTML_cells_kept n) e
                (narrow s (tag_selector attrT)) h) as [_ Hcall].
    specialize (Hcall l Hl). destruct (New e h) as [v h1].
    simpl in Hcall. destruct (UnmarshalHTML n _ _ h1) as [[] h2]; simpl in *;
      intros; by auto.
Qed.

(** ** What the destination holds does not matter *)

(** X8: whether [UnmarshalHTML] succeeds, and with which error or panic it
    fails, depends on the type of the destination and on the scope, and
    neither on the location of the destination nor on anything the store
    holds. *)
Theorem outcome_ignores_store n t s p1 p2 h1 h2 :
  (UnmarshalHTML n (pointer_to t p1) s h1).1 =
  (UnmarshalHTML n (pointer_to t p2) s h2).1.
Proof.
  destruct t as [| | |fs|].
  1-3,5: by destruct n.
  apply same_absences_outcome. by apply (same_absences_refl (depth (TStruct fs))).
Qed.

(** ** Sequences of an unsupported element type *)

(** X9: a sequence field whose element type is not of kind string yields
    the error "Invalid slice type" in every scope, also when its selector
    matches nothing; a field that is not nil is left as it is, and so is the
    rest of the store. *)
Theorem unsupported_element_is_static rec s attrV attrT e h :
  vtype attrV = TSlice e →
  kind e ≠ String_ →
  (unmarshalAttr rec s attrV attrT h).1 = Err "Invalid slice type" ∧
  (∀ elems, load attrV h = Some (VSlice (Some elems)) →
     unmarshalAttr rec s attrV attrT h = (Err "Invalid slice type", h)).
Proof.
  intros Ht He. unfold unmarshalAttr. rewrite Ht. cbn [kind]. split.
  - rewrite unmarshalSlice_outcome, Ht. cbn [Elem]. by destruct e as [[]| | | |].
  - intros elems Hload. unfold unmarshalSlice, Pointer_is_0.
    rewrite Hload, Ht. cbn [Elem]. by destruct (kind e).
Qed.

(** ** Records of strings and sequences of strings *)

Lemma unmarshalAttr_flat rec s p i attrT x h :
  CanSet attrT = true →
  flat (Typ attrT) = true →
  field h p i = Some x →
  of_kind x (Typ attrT) = true →
  unmarshalAttr rec s (mkValue p i (Typ attrT)) attrT h =
  (Nil, store (mkValue p i (Typ attrT)) (decoded_value s attrT x) h).
Proof.
  intros Hset Hflat Hx Hkind. unfold decoded_value. rewrite Hset.
  destruct (Typ attrT) as [[]|[[]| | | |]| | |] eqn:Ht; try discriminate Hflat.
  - unfold unmarshalAttr. cbn [vtype kind assignable_from_string]. done.
  - destruct x as [|old| | |]; try discriminate Hkind.
    unfold unmarshalAttr. cbn [vtype kind].
    rewrite (unmarshalSlice_strings _ _ _ _ old) by done. by destruct old.
Qed.

Lemma decoded_value_of_kind s attrT x :
  of_kind x (Typ attrT) = true → of_kind (decoded_value s attrT x) (Typ attrT) = true.
Proof.
  unfold decoded_value. destruct (CanSet attrT); [|done].
  by destruct (Typ attrT).
Qed.

Lemma fields_loop_flat rec s p fs :
  ∀ done rest h,
    h !! p = Some (VStruct (done ++ rest)) →
    Forall2 (fun x attrT => of_kind x (Typ attrT) = true) rest fs →
    Forall (fun attrT => CanSet attrT = true → flat (Typ attrT) = true) fs →
    fields_loop rec s p fs (length done) h =
    (Nil, <[p := VStruct (done ++ zip_with (decoded_value s) fs rest)]> h).
Proof.
  induction fs as [|attrT fs IH]; intros done rest h Hp Hty Hflat.
  - apply Forall2_nil_inv_r in Hty as ->. simpl. by rewrite insert_id.
  - apply Forall2_cons_inv_r in Hty as (x & rest' & Hx & Hty & ->).
    apply Forall_cons in Hflat as [Hhere Hflat].
    cbn [fields_loop zip_with].
    destruct (CanSet attrT) eqn:Hset; cbn [negb].
    + rewrite (unmarshalAttr_flat rec s p (length done) attrT x h); try done; auto.
      2:{ unfold field. rewrite Hp. by rewrite list_lookup_middle. }
      rewrite (store_struct (mkValue p (length done) (Typ attrT)) _ h _ Hp).
      cbn [base fidx].
      rewrite insert_app_r_alt by lia. rewrite Nat.sub_diag. cbn [insert list_insert].
      set (y := decoded_value s attrT x).
      replace (S (length done)) with (length (done ++ [y]))
        by (rewrite length_app; simpl; lia).
      rewrite (IH (done ++ [y]) rest'); [|by rewrite lookup_insert_eq, <- app_assoc|done..].
      by rewrite insert_insert_eq, <- app_assoc.
    + assert (decoded_value s attrT x = x) as ->
        by (unfold decoded_value; by rewrite Hset).
      replace (S (length done)) with (length (done ++ [x]))
        by (rewrite length_app; simpl; lia).
      rewrite (IH (done ++ [x]) rest' h); [|by rewrite <- app_assoc|done..].
      by rewrite <- app_assoc.
Qed.

Lemma flat_record_run n s p fs vals h :
  h !! p = Some (VStruct vals) →
  Forall2 (fun x attrT => of_kind x (Typ attrT) = true) vals fs →
  Forall (fun attrT => CanSet attrT = true → flat (Typ attrT) = true) fs →
  UnmarshalHTML (S n) (pointer_to (TStruct fs) p) s h =
  (Nil, <[p := VStruct (zip_with (decoded_value s) fs vals)]> h).
Proof.
  intros Hp Hty Hflat. simpl.
  by rewrite (fields_loop_flat _ s p fs [] vals h).
Qed.

(** X10: in a scope that is not the nil pointer, a record whose settable
    fields are strings and sequences of strings, the sequences being nil
    before the call, is always decoded without error, and each field is
    decoded on its own: a string holds the value extracted from the first
    match of its selector, a sequence the values of the matches in order (it
    is not nil, even without a match), a field that cannot be set what it
    held; nothing else in the store changes. *)
Theorem flat_record_decoded n s p fs vals h :
  h !! p = Some (VStruct vals) →
  Forall2 (fun x attrT => of_kind x (Typ attrT) = true) vals fs →
  Forall (fun attrT => CanSet attrT = true → flat (Typ attrT) = true) fs →
  Forall2 (fun x attrT => CanSet attrT = true → unset x) vals fs →
  UnmarshalHTML (S n) (pointer_to (TStruct fs) p) s h =
  (Nil, <[p := VStruct (zip_with (decoded_value s) fs vals)]> h) ∧
  ∀ i attrT x, fs !! i = Some attrT → vals !! i = Some x →
    field (UnmarshalHTML (S n) (pointer_to (TStruct fs) p) s h).2 p i
    = Some (decoded_value s attrT x).
Proof.
  intros Hp Hty Hflat _. rewrite (flat_record_run n s p fs vals h) by done.
  split; [done|].
  intros i attrT x Hi Hx. unfold field. simpl. rewrite lookup_insert_eq.
  rewrite lookup_zip_with, Hi. simpl. by rewrite Hx.
Qed.

(** X11: decoding the same record twice in the same scope, from
    sequences that are nil: a string field holds after the second run what
    it held after the first, a sequence field holds the values of the
    matches after the first run and the same values twice after the
    second. *)
Theorem decoding_twice n m s p fs vals h :
  h !! p = Some (VStruct vals) →
  Forall2 (fun x attrT => of_kind x (Typ attrT) = true) vals fs →
  Forall (fun attrT => CanSet attrT = true → flat (Typ attrT) = true) fs →
  Forall2 (fun x attrT => CanSet attrT = true → unset x) vals fs →
  let once := UnmarshalHTML (S n) (pointer_to (TStruct fs) p) s h in
  let twice := UnmarshalHTML (S m) (pointer_to (TStruct fs) p) s once.2 in
  twice.1 = Nil ∧
  ∀ i attrT, fs !! i = Some attrT → CanSet attrT = true →
    (Typ attrT = TString false → field twice.2 p i = field once.2 p i) ∧
    (Typ attrT = TSlice (TString false) →
       let matches := map (extracted (tag_attr attrT))
                          (nodes (Find s (tag_selector attrT))) in
       field once.2 p i = Some (VSlice (Some matches)) ∧
       field twice.2 p i = Some (VSlice (Some (matches ++ matches)))).
Proof.
  intros Hp Hty Hflat Hunset once twice.
  assert (once = (Nil, <[p := VStruct (zip_with (decoded_value s) fs vals)]> h))
    as Honce by by apply flat_record_run.
  assert (Forall2 (fun x attrT => of_kind x (Typ attrT) = true)
            (zip_with (decoded_value s) fs vals) fs) as Hty'.
  { clear -Hty. induction Hty as [|x attrT vals fs Hx _ IH]; simpl; constructor;
      [by apply decoded_value_of_kind|done]. }
  assert (twice = (Nil, <[p := VStruct (zip_with (decoded_value s) fs
                                          (zip_with (decoded_value s) fs vals))]>
                          once.2)) as Htwice.
  { unfold twice. apply flat_record_run; [|done..].
    rewrite Honce. simpl. by rewrite lookup_insert_eq. }
  split; [by rewrite Htwice|].
  intros i attrT Hi Hset.
  destruct (Forall2_lookup_r _ _ _ i attrT Hty Hi) as (x & Hx & Hkind).
  pose proof (Forall2_lookup_lr _ _ _ i x attrT Hunset Hx Hi Hset) as Hx_unset.
  assert (field once.2 p i = Some (decoded_value s attrT x)) as Hf1.
  { rewrite Honce. unfold field. simpl. rewrite lookup_insert_eq.
    rewrite lookup_zip_with, Hi. simpl. by rewrite Hx. }
  assert (field twice.2 p i
          = Some (decoded_value s attrT (decoded_value s attrT x))) as Hf2.
  { rewrite Htwice. unfold field. simpl. rewrite lookup_insert_eq.
    rewrite lookup_zip_with, Hi. simpl.
    rewrite lookup_zip_with, Hi. simpl. by rewrite Hx. }
  rewrite Hf1, Hf2. unfold decoded_value. rewrite Hset. split.
  - by intros ->.
  - intros Ht. rewrite Ht in *. simpl.
    destruct x as [|[elems|]| | |]; try discriminate Hkind;
      [by destruct (Hx_unset elems)|done].
Qed.

(** ** Nested records of strings *)

Lemma zero_fields_of_kind fs :
  Forall2 (fun x attrT => of_kind x (Typ attrT) = true)
          (map (fun f => zero (Typ f)) fs) fs.
Proof. induction fs as [|f fs IH]; simpl; constructor; [by destruct (Typ f)|done]. Qed.

(** X12: the selectors of a nested record are applied inside the scope its
    own selector has narrowed.  A nested record whose settable fields are
    strings and sequences of strings, and whose scope holds a node, is decoded
    without error into a fresh location: each of its strings holds the value
    extracted from [Find (narrow s selector) inner_selector], its sequences the
    values of those matches; a by-value field is assigned that record, a
    by-reference field the pointer to the fresh location, where the record
    is. *)
Theorem nested_flat_record_decoded n s attrV attrT inner h :
  nested_record (vtype attrV) = Some inner →
  Forall (fun f => CanSet f = true → flat (Typ f) = true) inner →
  nodes (narrow s (tag_selector attrT)) ≠ [] →
  let newS := narrow s (tag_selector attrT) in
  let v := fresh (dom h) in
  let decoded :=
    VStruct (zip_with (decoded_value newS) inner (map (fun f => zero (Typ f)) inner)) in
  unmarshalAttr (UnmarshalHTML (S n)) s attrV attrT h =
  (Nil, store attrV (match vtype attrV with
                     | TPtr _ => VPtr (Some v)
                     | _ => decoded
                     end) (<[v := decoded]> h)).
Proof.
  intros Hnested Hflat Hnodes newS v decoded.
  rewrite (unmarshalAttr_nested _ s attrV attrT inner) by done.
  cbv zeta. fold v newS.
  rewrite (flat_record_run n newS v inner (map (fun f => zero (Typ f)) inner));
    [|by rewrite lookup_insert_eq|apply zero_fields_of_kind|done].
  fold decoded. rewrite insert_insert_eq.
  unfold Indirect. by rewrite lookup_insert_eq.
Qed.

(** ** The pointers the decoder stores *)

Lemma field_store_cases attrV x h :
  field (store attrV x h) (base attrV) (fidx attrV) = Some x ∨
  field (store attrV x h) (base attrV) (fidx attrV) = None.
Proof.
  destruct (load attrV h) as [y|] eqn:Hload.
  - left. apply field_store_eq. by rewrite Hload.
  - right. revert Hload. unfold load, field, store. rewrite lookup_alter_eq.
    destruct (h !! base attrV) as [[]|]; simpl; try done.
    intros Hnone. apply lookup_ge_None in Hnone. apply lookup_ge_None.
    by rewrite length_insert.
Qed.

Lemma no_new_pointer_refl b i h : no_new_pointer b i h h.
Proof. by left. Qed.

Lemma no_new_pointer_trans b i h1 h2 h3 :
  no_new_pointer b i h1 h2 → no_new_pointer b i h2 h3 → no_new_pointer b i h1 h3.
Proof.
  intros [H12|H12] [H23|H23]; try (by right).
  - left. congruence.
  - right. intros q. rewrite H23. apply H12.
Qed.

Lemma no_new_pointer_store attrV x h :
  (∀ q, x ≠ VPtr q) →
  no_new_pointer (base attrV) (fidx attrV) h (store attrV x h).
Proof.
  intros Hx. right. intros q.
  destruct (field_store_cases attrV x h) as [->| ->]; [|done].
  intros [= ->]. by eapply Hx.
Qed.

Lemma Each_from_no_new_pointer b i (f : nat → Selection → heap → outcome * heap) :
  (∀ k s h, no_new_pointer b i h (f k s h).2) →
  ∀ ns k h, no_new_pointer b i h (Each_from ns k f h).2.
Proof.
  intros Hf ns. induction ns as [|nd ns IH]; intros k h; simpl.
  - apply no_new_pointer_refl.
  - specialize (Hf k (newSingleSelection nd) h).
    destruct (f k (newSingleSelection nd) h) as [[] h1]; simpl in *; try done.
    eapply no_new_pointer_trans; [done|apply IH].
Qed.

Lemma unmarshalSlice_no_new_pointer s selector htmlAttr attrV h :
  no_new_pointer (base attrV) (fidx attrV) h
    (unmarshalSlice s selector htmlAttr attrV h).2.
Proof.
  unfold unmarshalSlice.
  set (h0 := if Pointer_is_0 attrV h then _ else _).
  assert (no_new_pointer (base attrV) (fidx attrV) h h0) as H0.
  { unfold h0. destruct (Pointer_is_0 attrV h);
      [by apply no_new_pointer_store | apply no_new_pointer_refl]. }
  destruct (Elem (vtype attrV)) as [e|]; [|done].
  destruct (kind e); try done.
  eapply no_new_pointer_trans; [done|]. unfold Each.
  apply Each_from_no_new_pointer. intros k s' h'.
  destruct (assignable_from_string e); simpl; [|apply no_new_pointer_refl].
  apply no_new_pointer_store. unfold Append.
  by destruct (load attrV h') as [[|[]| | |]|].
Qed.

(** A pointer found in a field after the field was decoded was there
    before, or points to a record in a location the store did not have. *)
Lemma unmarshalAttr_stored_pointer n s attrV attrT h l :
  base attrV ∈ dom h →
  field (unmarshalAttr (UnmarshalHTML n) s attrV attrT h).2
        (base attrV) (fidx attrV) = Some (VPtr (Some l)) →
  field h (base attrV) (fidx attrV) = Some (VPtr (Some l)) ∨
  ((l ∉ dom h) ∧
   (∃ vs, (unmarshalAttr (UnmarshalHTML n) s attrV attrT h).2 !! l
          = Some (VStruct vs))).
Proof.
  intros Hb. unfold unmarshalAttr.
  destruct (kind (vtype attrV)) eqn:Hkind; eauto.
  - (* pointer *)
    unfold unmarshalPtr. destruct (Nodes _); eauto.
    destruct (Elem _) as [e|]; eauto. case_decide as He; eauto.
    destruct (fresh_call_cells_kept _ (UnmarshalHTML_cells_kept n) e
                (narrow s (tag_selector attrT)) h) as [_ Hcall].
    pose proof (UnmarshalHTML_records_kept n (pointer_to e (New e h).1)
                  (narrow s (tag_selector attrT)) (New e h).2 (New e h).1) as Hrec.
    specialize (Hcall _ Hb).
    assert ((New e h).1 ∉ dom h) as Hfresh by apply is_fresh.
    assert ((New e h).2 !! (New e h).1 = Some (zero e)) as Hzero
      by apply lookup_insert_eq.
    destruct (New e h) as [v h1]. simpl in *.
    destruct (UnmarshalHTML n _ _ h1) as [[] h2]; simpl in *;
      try (intros Hf; left; rewrite <- Hf; symmetry; apply field_cell_eq; by auto).
    destruct (field_store_cases attrV (VPtr (Some v)) h2) as [->| ->]; [|done].
    intros [= <-]. right. split; [done|].
    destruct e as [| | |fs|]; try discriminate He.
    destruct (Hrec _ Hzero) as (vs & Hvs & _). exists vs.
    rewrite store_lookup_ne; [done|]. intros ->. done.
  - (* slice *)
    intros Hf. left.
    destruct (unmarshalSlice_no_new_pointer s (tag_selector attrT) (tag_attr attrT)
                attrV h) as [Hsame|Hnot]; [congruence|]. by destruct (Hnot (Some l)).
  - (* string *)
    destruct (assignable_from_string _); eauto. intros Hf. exfalso.
    cbn [snd] in Hf.
    destruct (field_store_cases attrV
                (VString (getDOMValue (Find s (tag_selector attrT)) (tag_attr attrT))) h)
      as [Hs|Hs]; rewrite Hs in Hf; done.
  - (* struct *)
    unfold unmarshalStruct. destruct (Nodes _); eauto.
    destruct (fresh_call_cells_kept _ (UnmarshalHTML_cells_kept n) (vtype attrV)
                (narrow s (tag_selector attrT)) h) as [_ Hcall].
    pose proof (UnmarshalHTML_records_kept n
                  (pointer_to (vtype attrV) (New (vtype attrV) h).1)
                  (narrow s (tag_selector attrT)) (New (vtype attrV) h).2
                  (New (vtype attrV) h).1) as Hrec.
    specialize (Hcall _ Hb).
    assert ((New (vtype attrV) h).2 !! (New (vtype attrV) h).1
            = Some (zero (vtype attrV))) as Hzero by apply lookup_insert_eq.
    destruct (New (vtype attrV) h) as [v h1]. simpl in *.
    destruct (UnmarshalHTML n _ _ h1) as [[] h2]; simpl in *;
      try (intros Hf; left; rewrite <- Hf; symmetry; apply field_cell_eq; by auto).
    intros Hf. exfalso.
    destruct (vtype attrV) as [| | |fs|]; try discriminate Hkind.
    destruct (Hrec _ Hzero) as (vs & Hvs & _).
    unfold Indirect in Hf. rewrite Hvs in Hf. cbn [default from_option id] in Hf.
    destruct (field_store_cases attrV (VStruct vs) h2) as [Hs|Hs];
      rewrite Hs in Hf; done.
Qed.

(** X13: a pointer that [UnmarshalHTML] leaves in a field of the
    destination is either the one the caller had stored there or a pointer
    to a record in a location the caller's store did not have: the decoder
    never makes a field point into the memory of the caller. *)
Theorem stored_pointers_are_fresh n s p fs h :
  p ∈ dom h →
  ∀ i l,
    field (UnmarshalHTML (S n) (pointer_to (TStruct fs) p) s h).2 p i
      = Some (VPtr (Some l)) →
    field h p i = Some (VPtr (Some l)) ∨
    ((l ∉ dom h) ∧
     (∃ vs, (UnmarshalHTML (S n) (pointer_to (TStruct fs) p) s h).2 !! l
            = Some (VStruct vs))).
Proof.
  intros Hp i l. simpl. generalize 0 as i0. revert h Hp.
  induction fs as [|attrT fs IH]; intros h Hp i0; simpl; [by left|].
  destruct (CanSet attrT); simpl; [|by apply IH].
  pose proof (unmarshalAttr_stored_pointer n s (mkValue p i0 (Typ attrT)) attrT h l Hp)
    as Hhere.
  pose proof (unmarshalAttr_field_kept _ (UnmarshalHTML_cells_kept n) s
                (mkValue p i0 (Typ attrT)) attrT h i Hp) as Hkept.
  destruct (unmarshalAttr_cells_kept _ (UnmarshalHTML_cells_kept n) s
              (mkValue p i0 (Typ attrT)) attrT h) as [Hd _].
  destruct (unmarshalAttr _ _ _ _ h) as [o h1]. simpl in *.
  assert (field h1 p i = Some (VPtr (Some l)) →
          field h p i = Some (VPtr (Some l)) ∨
          ((l ∉ dom h) ∧ (∃ vs, h1 !! l = Some (VStruct vs)))) as Hstep.
  { intros Hf. destruct (decide (i = i0)) as [->|Hne]; [by apply Hhere|].
    left. by rewrite <- Hkept. }
  destruct o; try done.
  assert (p ∈ dom h1) as Hp1 by set_solver.
  intros Hf. destruct (IH h1 Hp1 (S i0) Hf) as [Hold|[Hnew Hrecord]].
  - destruct (Hstep Hold) as [?|[Hnew (vs & Hvs)]]; [by left|].
    right. split; [done|].
    destruct (fields_loop_records_kept _ (UnmarshalHTML_records_kept n) s p fs
                (S i0) h1 l vs Hvs) as (vs' & Hvs' & _).
    by exists vs'.
  - right. split; [|done]. intros Hin. apply Hnew. by apply Hd.
Qed.

(** ** Values stay of their types *)

Lemma typed_in_mono look look' :
  (∀ l y, look l = Some y → look' l = Some y) →
  ∀ n t x, depth t ≤ n → typed_in look x t → typed_in look' x t.
Proof.
  intros Hsub n.
  induction n as [|n IH]; intros t x Hn Hty;
    inversion Hty as [| |e l Hl| |e l y Hl Hy|fs vs Hvs|]; subst;
    simpl in Hn; try lia; try (by constructor).
  - constructor. eapply Forall_impl; [done|].
    intros y Hy. apply IH; [lia|done].
  - econstructor; [by apply Hsub|]. apply IH; [lia|done].
  - constructor.
    assert (∀ f, f ∈ fs → depth (Typ f) ≤ n) as Hfs.
    { intros f Hin. pose proof (depth_field f fs Hin). simpl in *. lia. }
    clear Hn Hty. induction Hvs as [|y f vs fs Hy _ IHvs]; constructor.
    + apply IH; [|done]. apply Hfs. by left.
    + apply IHvs. intros f' Hin. apply Hfs. by right.
Qed.

Lemma zero_typed look n : ∀ t, depth t ≤ n → typed_in look (zero t) t.
Proof.
  induction n as [|n IH]; intros t Hn; destruct t as [| | |fs|]; simpl in *;
    try constructor; try lia.
  assert (∀ f, f ∈ fs → depth (Typ f) ≤ n) as Hfs.
  { intros f Hin. pose proof (depth_field f fs Hin). simpl in *. lia. }
  clear Hn. induction fs as [|f fs IHfs]; simpl; constructor.
  - apply IH, Hfs. by left.
  - apply IHfs. intros f' Hin. apply Hfs. by right.
Qed.

Lemma outside_store D a x h l :
  base a ∈ D → outside D (store a x h) l = outside D h l.
Proof.
  intros Hb. unfold outside. case_decide; [done|].
  apply store_lookup_ne. by intros ->.
Qed.

(** A record stays well typed when its own cell and the cells outside [D]
    stay as they are, whatever else is added to the store. *)
Lemma record_ok_kept D p fs h h' :
  h' !! p = h !! p →
  (∀ l y, l ∉ D → h !! l = Some y → h' !! l = Some y) →
  record_ok D p fs h → record_ok D p fs h'.
Proof.
  intros Hp Hout (vs & Hvs & Hty). exists vs. split; [by rewrite Hp|].
  eapply Forall2_impl; [done|]. intros x f Hx. cbn beta in Hx.
  apply (typed_in_mono (outside D h) _) with (n := depth (Typ f)); [|done..].
  intros l y. unfold outside. case_decide; [done|]. by apply Hout.
Qed.

Lemma record_ok_store D fs p i t attrT x h :
  p ∈ D →
  record_ok D p fs h →
  fs !! i = Some attrT →
  typed_in (outside D h) x (Typ attrT) →
  record_ok D p fs (store (mkValue p i t) x h).
Proof.
  intros HpD (vs & Hvs & Hty) Hi Hx.
  exists (<[i:=x]> vs). split.
  - unfold store. cbn [base fidx]. by rewrite lookup_alter_eq, Hvs.
  - rewrite <- (list_insert_id fs i attrT Hi).
    apply Forall2_insert; [|cbn beta].
    + eapply Forall2_impl; [done|]. intros y f Hy. cbn beta in Hy.
      apply (typed_in_mono (outside D h) _) with (n := depth (Typ f)); [|done..].
      intros l z. by rewrite (outside_store D (mkValue p i t)).
    + apply (typed_in_mono (outside D h) _) with (n := depth (Typ attrT));
        [|done..].
      intros l z. by rewrite (outside_store D (mkValue p i t)).
Qed.

Lemma record_ok_field D fs p i attrT x h :
  record_ok D p fs h → fs !! i = Some attrT → field h p i = Some x →
  typed_in (outside D h) x (Typ attrT).
Proof.
  intros (vs & Hvs & Hty) Hi. unfold field. rewrite Hvs. intros Hx.
  by apply (Forall2_lookup_lr _ _ _ i x attrT Hty).
Qed.

Lemma Each_from_invariant (I : heap → Prop)
    (f : nat → Selection → heap → outcome * heap) :
  (∀ k s h, I h → I (f k s h).2) →
  ∀ ns k h, I h → I (Each_from ns k f h).2.
Proof.
  intros Hf ns. induction ns as [|nd ns IH]; intros k h Hh; simpl; [done|].
  specialize (Hf k (newSingleSelection nd) h Hh).
  destruct (f k (newSingleSelection nd) h) as [[] h1]; simpl in *; try done.
  by apply IH.
Qed.

Lemma unmarshalSlice_typed D fs s p i attrT e h :
  p ∈ D →
  record_ok D p fs h →
  fs !! i = Some attrT →
  Typ attrT = TSlice e →
  record_ok D p fs
    (unmarshalSlice s (tag_selector attrT) (tag_attr attrT)
       (mkValue p i (Typ attrT)) h).2.
Proof.
  intros HpD Hcell Hi Ht. unfold unmarshalSlice.
  set (attrV := mkValue p i (Typ attrT)).
  set (h0 := if Pointer_is_0 attrV h then _ else _).
  assert (record_ok D p fs h0) as H0.
  { unfold h0. destruct (Pointer_is_0 attrV h); [|done].
    apply (record_ok_store D fs p i _ attrT); [done..|].
    rewrite Ht. by repeat constructor. }
  clearbody h0. subst attrV. cbn [vtype]. rewrite Ht. cbn [Elem].
  destruct e as [[]| | | |]; try done; cbn [kind assignable_from_string];
    unfold Each.
  - by apply (Each_from_invariant (record_ok D p fs)).
  - apply (Each_from_invariant (record_ok D p fs)); [|done].
    intros k s' h' Hcell'. cbn [snd].
    apply (record_ok_store D fs p i _ attrT); [done..|].
    rewrite Ht. unfold Append, load. cbn [base fidx].
    destruct (field h' p i) as [x|] eqn:Hx;
      [|by repeat constructor].
    pose proof (record_ok_field D fs p i attrT x h' Hcell' Hi Hx) as Htx.
    rewrite Ht in Htx.
    inversion Htx as [|e'|e' elems Helems| | | |]; subst;
      [by repeat constructor|].
    constructor. apply Forall_app_2; [done|]. by repeat constructor.
Qed.

Section one_level_typed.
Variable rec : interface → Selection → heap → outcome * heap.
Hypothesis rec_cells_kept : ∀ v s h, cells_kept (target v) h (rec v s h).2.
Hypothesis rec_typed :
  ∀ D fs p s h, p ∈ D → D ⊆ dom h → record_ok D p fs h →
    record_ok D p fs (rec (pointer_to (TStruct fs) p) s h).2.

(** After a call on a fresh record of type [TStruct fs'], the record that
    holds the field is as it was, and the fresh location, which is outside
    [D], holds a record of that type whose pointers lead outside [D]. *)
Lemma fresh_call_typed D fs p fs' s h :
  p ∈ D → D ⊆ dom h →
  record_ok D p fs h →
  let v := (New (TStruct fs') h).1 in
  let h2 := (rec (pointer_to (TStruct fs') v) s (New (TStruct fs') h).2).2 in
  record_ok D p fs h2 ∧ (v ∉ D) ∧
  (∃ vs', h2 !! v = Some (VStruct vs') ∧
          typed_in (outside D h2) (VStruct vs') (TStruct fs')).
Proof.
  intros HpD HD Hcell v h2.
  destruct (fresh_call_cells_kept rec rec_cells_kept (TStruct fs') s h) as [_ Hk].
  assert (v ∉ dom h) as Hv by apply is_fresh.
  split; [|split; [by intros Hin; apply Hv, HD|]].
  - apply (record_ok_kept D p fs h); [| |done].
    + apply Hk; [|done]. destruct Hcell as (x & Hx & _).
      apply elem_of_dom. by rewrite Hx.
    + intros l y _ Hl. rewrite Hk; [done| |done].
      apply elem_of_dom. by rewrite Hl.
  - destruct (rec_typed (D ∪ {[v]}) fs' v s (New (TStruct fs') h).2)
      as (vs' & Hvs' & Hty').
    + apply elem_of_union. right. by apply elem_of_singleton.
    + unfold New. cbn [snd]. rewrite dom_insert_L. fold v.
      intros l [Hl|Hl]%elem_of_union; apply elem_of_union; [right; by apply HD|by left].
    + exists (map (fun f => zero (Typ f)) fs'). split; [apply lookup_insert_eq|].
      pose proof (zero_typed (outside (D ∪ {[v]}) (New (TStruct fs') h).2)
                    (depth (TStruct fs')) (TStruct fs') (le_n _)) as Hz.
      by inversion Hz.
    + exists vs'. split; [done|]. constructor.
      eapply Forall2_impl; [done|]. intros x f Hx. cbn beta in Hx.
      apply (typed_in_mono (outside (D ∪ {[v]}) h2) _) with (n := depth (Typ f));
        [|done..].
      intros l y. unfold outside.
      destruct (decide (l ∈ D ∪ {[v]})) as [|Hl]; [done|].
      rewrite decide_False; [done|]. intros Hin. apply Hl.
      apply elem_of_union. by left.
Qed.

Lemma unmarshalAttr_typed D fs s p i attrT h :
  p ∈ D → D ⊆ dom h →
  record_ok D p fs h →
  fs !! i = Some attrT →
  record_ok D p fs
    (unmarshalAttr rec s (mkValue p i (Typ attrT)) attrT h).2.
Proof.
  intros HpD HD Hcell Hi. unfold unmarshalAttr. cbn [vtype].
  destruct (Typ attrT) as [d|e|e|fs'|str] eqn:Ht; cbn [kind]; try done.
  - destruct (assignable_from_string (TString d)); [|done]. cbn [snd].
    apply (record_ok_store D fs p i _ attrT); [done..|]. rewrite Ht. constructor.
  - rewrite <- Ht. by apply (unmarshalSlice_typed D fs s p i attrT e).
  - unfold unmarshalPtr. destruct (Nodes _); [|done]. cbn [vtype Elem].
    case_decide as He; [done|].
    destruct e as [d|e'|e'|fs'|str]; try discriminate He.
    destruct (fresh_call_typed D fs p fs' (narrow s (tag_selector attrT)) h
                HpD HD Hcell) as (Hp & Hv & vs' & Hvs' & Hty').
    destruct (New (TStruct fs') h) as [v h1]. simpl in Hp, Hv, Hvs', Hty'.
    destruct (rec _ _ h1) as [[] h2]; simpl in *; try done.
    apply (record_ok_store D fs p i _ attrT); [done..|]. rewrite Ht.
    apply (typed_ptr _ _ v (VStruct vs')); [|done].
    unfold outside. by rewrite decide_False.
  - unfold unmarshalStruct. destruct (Nodes _); [|done]. cbn [vtype].
    destruct (fresh_call_typed D fs p fs' (narrow s (tag_selector attrT)) h
                HpD HD Hcell) as (Hp & Hv & vs' & Hvs' & Hty').
    destruct (New (TStruct fs') h) as [v h1]. simpl in Hp, Hv, Hvs', Hty'.
    destruct (rec _ _ h1) as [[] h2]; simpl in *; try done.
    apply (record_ok_store D fs p i _ attrT); [done..|]. rewrite Ht.
    unfold Indirect. by rewrite Hvs'.
Qed.

Lemma fields_loop_typed D fs_all s p fs :
  p ∈ D →
  ∀ i h,
    (∀ k attrT, fs !! k = Some attrT → fs_all !! (i + k) = Some attrT) →
    D ⊆ dom h →
    record_ok D p fs_all h →
    record_ok D p fs_all (fields_loop rec s p fs i h).2.
Proof.
  intros HpD.
  induction fs as [|attrT fs IH]; intros i h Hfs HD Hcell; simpl; [done|].
  assert (∀ k attrT', fs !! k = Some attrT' → fs_all !! (S i + k) = Some attrT')
    as Hrest.
  { intros k attrT' Hk. replace (S i + k) with (i + S k) by lia. by apply Hfs. }
  destruct (CanSet attrT); simpl; [|by apply IH].
  pose proof (unmarshalAttr_typed D fs_all s p i attrT h HpD HD Hcell) as Hstep.
  rewrite <- (Hfs 0 attrT eq_refl), Nat.add_0_r in Hstep.
  specialize (Hstep eq_refl).
  destruct (unmarshalAttr_cells_kept rec rec_cells_kept s
              (mkValue p i (Typ attrT)) attrT h) as [Hdom _].
  destruct (unmarshalAttr _ _ _ _ h) as [[] h1]; simpl in *; try done.
  apply IH; [done|set_solver|done].
Qed.

End one_level_typed.

Lemma UnmarshalHTML_typed n :
  ∀ D fs p s h, p ∈ D → D ⊆ dom h → record_ok D p fs h →
    record_ok D p fs (UnmarshalHTML n (pointer_to (TStruct fs) p) s h).2.
Proof.
  induction n as [|n IH]; intros D fs p s h HpD HD Hcell; simpl; [done|].
  apply (fields_loop_typed _ (UnmarshalHTML_cells_kept n) IH D fs); [done| |done..].
  by intros k attrT Hk.
Qed.

(** X14: decoding keeps the destination a value of its type, whether it
    ends with nil, an error or a panic.  When each field of the destination
    holds a value of its declared type (a string for a string field, a
    sequence whose elements are of the element type, a record with a value
    of its type for each declared field, a reference that is nil or leads,
    away from the destination, to a value of the target type in the store,
    and so on at every depth), then after the call each field does so again,
    in the store the call has left: a by-reference field the decoder has
    filled points to a record of the declared fields. *)
Theorem destination_stays_typed n fs p s h vs :
  h !! p = Some (VStruct vs) →
  Forall2 (fun x attrT => typed_in (outside {[p]} h) x (Typ attrT)) vs fs →
  let h' := (UnmarshalHTML n (pointer_to (TStruct fs) p) s h).2 in
  ∃ vs', h' !! p = Some (VStruct vs') ∧
         Forall2 (fun y attrT => typed_in (outside {[p]} h') y (Typ attrT)) vs' fs.
Proof.
  intros Hp Hty h'.
  apply (UnmarshalHTML_typed n {[p]} fs p s h).
  - set_solver.
  - apply singleton_subseteq_l, elem_of_dom. by rewrite Hp.
  - by exists vs.
Qed.

(** ** By value and by reference *)

(** X15: a nested record decodes the same by value and by reference.  For
    the same selector and record type, started in the same store, a by-value
    field and a by-reference field return the same outcome; when it is nil
    and the scope holds nodes, the by-reference field points to a record in
    a fresh location and the by-value field holds that very record. *)
Theorem value_and_reference_agree n s p1 i1 p2 i2 attrT fs' h :
  is_Some (field h p1 i1) →
  is_Some (field h p2 i2) →
  let by_value :=
    unmarshalAttr (UnmarshalHTML n) s (mkValue p1 i1 (TStruct fs')) attrT h in
  let by_reference :=
    unmarshalAttr (UnmarshalHTML n) s (mkValue p2 i2 (TPtr (TStruct fs'))) attrT h in
  by_value.1 = by_reference.1 ∧
  (by_value.1 = Nil → Nodes (narrow s (tag_selector attrT)) ≠ None →
     ∃ v x, h !! v = None ∧
            field by_reference.2 p2 i2 = Some (VPtr (Some v)) ∧
            by_reference.2 !! v = Some x ∧
            field by_value.2 p1 i1 = Some x).
Proof.
  intros Hsome1 Hsome2 by_value by_reference. subst by_value by_reference.
  assert (p1 ∈ dom h) as Hp1.
  { destruct Hsome1 as [y Hy]. by eapply field_Some_dom. }
  assert (p2 ∈ dom h) as Hp2.
  { destruct Hsome2 as [y Hy]. by eapply field_Some_dom. }
  unfold unmarshalAttr. cbn [vtype kind]. unfold unmarshalStruct, unmarshalPtr.
  cbn [vtype Elem kind].
  destruct (Nodes (narrow s (tag_selector attrT))) as [ns|]; [|by split].
  rewrite decide_False by (intros Hne; by apply Hne).
  destruct (fresh_call_cells_kept _ (UnmarshalHTML_cells_kept n) (TStruct fs')
              (narrow s (tag_selector attrT)) h) as [Hd Hk].
  pose proof (UnmarshalHTML_records_kept n
                (pointer_to (TStruct fs') (New (TStruct fs') h).1)
                (narrow s (tag_selector attrT)) (New (TStruct fs') h).2
                (New (TStruct fs') h).1 _ (lookup_insert_eq _ _ _)) as Hrec.
  assert (h !! (New (TStruct fs') h).1 = None) as Hfresh
    by apply fresh_not_in_heap.
  destruct (New (TStruct fs') h) as [v h1]. simpl in Hd, Hk, Hrec, Hfresh.
  destruct (UnmarshalHTML n _ _ h1) as [[] h2]; simpl in *; try (split; done).
  split; [done|]. intros _ _.
  destruct Hrec as (vs & Hvs & _).
  assert (p2 ≠ v) as Hpv.
  { intros ->. apply not_elem_of_dom in Hfresh. done. }
  exists v, (VStruct vs). split; [done|]. split; [|split].
  - apply (field_store_eq (mkValue p2 i2 (TPtr (TStruct fs')))).
    unfold load. cbn [base fidx]. rewrite (field_cell_eq h h2 p2 i2); [done|].
    by apply Hk.
  - rewrite store_lookup_ne; [done|]. simpl. congruence.
  - unfold Indirect. rewrite Hvs. simpl.
    apply (field_store_eq (mkValue p1 i1 (TStruct fs'))).
    unfold load. cbn [base fidx]. rewrite (field_cell_eq h h2 p1 i1); [done|].
    by apply Hk.
Qed.

End further_properties.

(** * Scenarios *)

Section scenarios.
Import Html Scenario.

Example scenario_article :
  UnmarshalHTML 2 (pointer_to (TStruct Article) dest) root (fresh_record Article)
  = (Nil,
     {[ dest := VStruct [VString "Hello";
                         VSlice (Some [VString "x"; VString "y"; VString " z "]);
                         VPtr (Some 2%positive);
                         VStruct [VString "some text"];
                         VString ""];
        2%positive := VStruct [VString "some text"];
        3%positive := VStruct [VString "some text"] ]}).
Proof. vm_compute. reflexivity. Qed.

(** The div of the page matches and holds no span: no error, and the
    inner string is empty. *)
Example scenario_nested_absent :
  (UnmarshalHTML 2 (pointer_to (TStruct Outer) dest) root (fresh_record Outer)).1
    = Nil ∧
  field (UnmarshalHTML 2 (pointer_to (TStruct Outer) dest) root
           (fresh_record Outer)).2 dest 0
    = Some (VStruct [VString ""]).
Proof. vm_compute. done. Qed.

(** The same runs through [Decode], which supplies the fuel. *)
Example scenario_Decode :
  Decode (pointer_to (TStruct Article) dest) root (fresh_record Article)
  = UnmarshalHTML 2 (pointer_to (TStruct Article) dest) root (fresh_record Article).
Proof. vm_compute. reflexivity. Qed.

(** C1: the destination is a pointer to an int. *)
Lemma pointer_to_non_record_panics_witness :
  kind (TOther "int") ≠ Struct ∧
  UnmarshalHTML 1 (pointer_to (TOther "int") dest) root {[ dest := VOther 7 ]}
  = (Panic NumField_of_non_struct, {[ dest := VOther 7 ]}).
Proof.
  split; [discriminate|].
  apply (pointer_to_non_record_panics 0 (TOther "int") dest root
           {[ dest := VOther 7 ]}).
  discriminate.
Defined.

(** C2, as stated, fails on a sequence: no "li" is in the page, [Decode]
    returns no error, and the field that was nil is not nil afterwards. *)
Lemma absent_sequence_is_not_left_unset :
  nodes (Find root "li") = [] ∧
  field (fresh_record Tagged) dest 0 = Some (zero (TSlice (TString false))) ∧
  (UnmarshalHTML 1 (pointer_to (TStruct Tagged) dest) root (fresh_record Tagged)).1
    = Nil ∧
  field (UnmarshalHTML 1 (pointer_to (TStruct Tagged) dest) root
           (fresh_record Tagged)).2 dest 0
    = Some (VSlice (Some [])) ∧
  field (UnmarshalHTML 1 (pointer_to (TStruct Tagged) dest) root
           (fresh_record Tagged)).2 dest 0
    ≠ Some (zero (TSlice (TString false))).
Proof. vm_compute. repeat split; discriminate. Qed.

Lemma absent_nodes_are_no_error_witness :
  UnmarshalHTML 1 (pointer_to (TStruct Missing) dest) root (fresh_record Missing)
  = (Nil, {[ dest := VStruct [VString ""; VSlice (Some []); VPtr None;
                              VStruct [VString ""]; VString ""] ]}).
Proof.
  apply (proj2 (absent_nodes_are_no_error 0 root dest Missing
           [VString ""; VSlice None; VPtr None; VStruct [VString ""]; VString ""]
           (fresh_record Missing))).
  - reflexivity.
  - repeat constructor.
  - repeat constructor; try discriminate.
Defined.

(** C10: the href of the last link is returned with its blanks. *)
Lemma getDOMValue_attr_verbatim_witness :
  "href" ≠ "" ∧ getDOMValue last_link "href" = " z " ∧ TrimSpace " z " = "z".
Proof.
  split; [discriminate|]. split; [|reflexivity].
  destruct (getDOMValue_attr_verbatim last_link "href") as [Hattr _].
  destruct (Hattr ltac:(discriminate)) as [_ Hfirst].
  apply (Hfirst (Element 5 "a" [("href", " z ")] []) []); reflexivity.
Defined.

(** C4: the three links of the page, in document order. *)
Lemma unmarshalAttr_sequence_witness :
  unmarshalAttr (UnmarshalHTML 0) root
    (mkValue dest 1 (TSlice (TString false)))
    (mkStructField "Links" true "a" "href" (TSlice (TString false)))
    (fresh_record Article)
  = (Nil, store (mkValue dest 1 (TSlice (TString false)))
            (VSlice (Some [VString "x"; VString "y"; VString " z "]))
            (fresh_record Article)).
Proof.
  apply (unmarshalAttr_sequence (UnmarshalHTML 0) root dest 1
           (mkStructField "Links" true "a" "href" (TSlice (TString false)))
           None (fresh_record Article)); reflexivity.
Defined.

(** C9: Nums is a []int; the page has links, the field was nil. *)
Lemma unsupported_element_initialises_sequence_witness :
  ∃ h', UnmarshalHTML 1 (pointer_to (TStruct Numbered) dest) root
          (fresh_record Numbered)
        = (Err "Invalid slice type", h') ∧
        field h' dest 1 = Some (VSlice (Some [])) ∧
        field h' dest 1 ≠ field (fresh_record Numbered) dest 1.
Proof.
  apply (unsupported_element_initialises_sequence 0 root dest
           [mkStructField "Title" true "h1" "" (TString false)] Nums []
           (TOther "int") (fresh_record Numbered));
    [reflexivity|reflexivity|discriminate|reflexivity|reflexivity].
Defined.

(** C5, as stated, fails on the name: the error for the field Count of type
    int is "Invalid type: <int Value>", in which "Count" does not occur. *)
Lemma unsupported_field_error_does_not_name_the_field :
  (UnmarshalHTML 1 (pointer_to (TStruct Counted) dest) root (fresh_record Counted)).1
    = Err "Invalid type: <int Value>" ∧
  ¬ ∃ msg,
      (UnmarshalHTML 1 (pointer_to (TStruct Counted) dest) root
         (fresh_record Counted)).1 = Err msg ∧
      mentions (Name Count) msg = true.
Proof.
  split; [reflexivity|]. intros (msg & Hmsg & Hname).
  vm_compute in Hmsg. injection Hmsg as <-. vm_compute in Hname. discriminate.
Qed.

Lemma unsupported_field_aborts_witness :
  UnmarshalHTML 1 (pointer_to (TStruct Counted) dest) root (fresh_record Counted)
  = (Err "Invalid type: <int Value>",
     {[ dest := VStruct [VString "Hello"; VOther 0; VSlice None] ]}).
Proof.
  etrans;
    [apply (unsupported_field_aborts 0 root dest
              [mkStructField "Title" true "h1" "" (TString false)] Count
              [mkStructField "Links" true "a" "href" (TSlice (TString false))]
              (fresh_record Counted)); reflexivity|].
  vm_compute. reflexivity.
Defined.




Example scenario_wrapped :
  (UnmarshalHTML 2 (pointer_to (TStruct Wrapped) dest) root (fresh_record Wrapped)).1
    = Err "Invalid type: <int Value>" ∧
  (UnmarshalHTML 2 (pointer_to (TStruct Wrapped) dest) heading (fresh_record Wrapped)).1
    = Nil.
Proof. vm_compute. done. Qed.

(** C7, as stated, fails on a string field: the page has no "h2", and the
    title the caller had stored is overwritten with the empty string. *)
Lemma unmatched_string_field_is_overwritten :
  nodes (Find root "h2") = [] ∧
  field titled_before dest 0 = Some (VString "old") ∧
  UnmarshalHTML 1 (pointer_to (TStruct Titled) dest) root titled_before
    = (Nil, {[ dest := VStruct [VString ""] ]}) ∧
  field (UnmarshalHTML 1 (pointer_to (TStruct Titled) dest) root titled_before).2
    dest 0 ≠ field titled_before dest 0.
Proof. vm_compute. repeat split; discriminate. Qed.

Lemma decoder_writes_only_resolved_fields_witness :
  dest ∈ dom (fresh_record Article) ∧
  field (UnmarshalHTML 2 (pointer_to (TStruct Article) dest) root
           (fresh_record Article)).2 dest 4
  = field (fresh_record Article) dest 4.
Proof.
  assert (dest ∈ dom (fresh_record Article)) as Hdest.
  { apply elem_of_dom. eexists. reflexivity. }
  split; [exact Hdest|].
  assert (sequences_unset Article dest (fresh_record Article)) as Hunset.
  { intros i attrT Hi _ Hk.
    do 5 (destruct i as [|i]; [by (injection Hi as <-)|]). done. }
  destruct (decoder_writes_only_resolved_fields 1 root dest Article
              (fresh_record Article) Hdest Hunset) as (_ & Hkept & _).
  apply (Hkept 4 (mkStructField "note" false "h1" "" (TString false)));
    [reflexivity|by left].
Defined.

(** C8: the field Box of Article, a *Inner whose selector matches the div
    of the page. *)
Lemma nested_record_decoding_witness :
  field (UnmarshalHTML 2 (pointer_to (TStruct Article) dest) root
           (fresh_record Article)).2 dest 2
  = Some (VPtr (Some 2%positive)).
Proof.
  destruct (nested_record_decoding 1 root dest
              [mkStructField "Title" true "h1" "" (TString false);
               mkStructField "Links" true "a" "href" (TSlice (TString false))]
              (mkStructField "Box" true "div" "" (TPtr (TStruct Inner)))
              [mkStructField "Body" true "div" "" (TStruct Inner);
               mkStructField "note" false "h1" "" (TString false)]
              Inner (fresh_record Article))
    as (_ & _ & _ & Hnil);
    [reflexivity|reflexivity|discriminate|by eexists|reflexivity|].
  destruct (Hnil ltac:(reflexivity)) as (vals & assigned & _ & _ & Hassigned & _ & Hfield).
  etrans; [exact Hfield|]. rewrite Hassigned. reflexivity.
Defined.

End scenarios.

(** * Scenarios of the further properties *)

Section further_scenarios.
Import Html Scenario.

(** X1: an int handed over by value. *)
Lemma invalid_destination_witness :
  kind (TOther "int") ≠ Ptr ∧
  UnmarshalHTML 1 (Some (TOther "int", VOther 7)) root (fresh_record Article)
  = (Err "Invalid type or nil-pointer", fresh_record Article).
Proof.
  split; [discriminate|].
  destruct (invalid_destination 0 root (fresh_record Article)) as (_ & Hnon & _).
  apply Hnon. discriminate.
Defined.

(** X2: Inner is one record deep. *)
Lemma fuel_above_depth_suffices_witness :
  depth (TStruct Inner) < 7 ∧
  UnmarshalHTML 7 (pointer_to (TStruct Inner) dest) root (fresh_record Inner)
  = Decode (pointer_to (TStruct Inner) dest) root (fresh_record Inner).
Proof.
  assert (depth (TStruct Inner) < 7) as Hd by (vm_compute; lia).
  split; [exact Hd|].
  apply (fuel_above_depth_suffices 7 (TStruct Inner) dest root (fresh_record Inner) Hd).
Defined.

(** X3: the error for the int of Counted. *)
Lemma errors_are_known_witness :
  (UnmarshalHTML 1 (pointer_to (TStruct Counted) dest) root (fresh_record Counted)).1
    = Err "Invalid type: <int Value>" ∧
  known_error "Invalid type: <int Value>".
Proof.
  assert ((UnmarshalHTML 1 (pointer_to (TStruct Counted) dest) root
             (fresh_record Counted)).1 = Err "Invalid type: <int Value>") as Hrun
    by reflexivity.
  split; [exact Hrun|].
  exact (errors_are_known 1 _ root (fresh_record Counted) _ Hrun).
Defined.

(** X4: Article has no defined string type and is three deep. *)
Lemma plain_record_never_panics_witness :
  plain (TStruct Article) = true ∧
  depth (TStruct Article) < 4 ∧
  ((UnmarshalHTML 4 (pointer_to (TStruct Article) dest) root (fresh_record Article)).1
     = Nil ∨
   ∃ msg, (UnmarshalHTML 4 (pointer_to (TStruct Article) dest) root
             (fresh_record Article)).1 = Err msg).
Proof.
  assert (depth (TStruct Article) < 4) as Hd by (vm_compute; lia).
  split; [reflexivity|]. split; [exact Hd|].
  apply (plain_record_never_panics 4 Article dest root (fresh_record Article));
    [reflexivity|exact Hd].
Defined.

(** X5: the field Kind of a defined string type. *)
Lemma defined_string_type_panics_witness :
  UnmarshalHTML 1 (pointer_to (TStruct Kinded) dest) root (fresh_record Kinded)
  = (Panic Set_not_assignable,
     {[ dest := VStruct [VString "Hello"; VString ""] ]}).
Proof.
  destruct (defined_string_type_panics 0 root dest
              [mkStructField "Title" true "h1" "" (TString false)] Kind_field []
              (fresh_record Kinded)) as (Hpanic & _);
    [reflexivity|reflexivity|].
  etrans; [apply Hpanic; reflexivity|]. vm_compute. reflexivity.
Defined.

(** X6: a record that stops at its []int, with a field after it. *)
Lemma first_failure_aborts_witness :
  UnmarshalHTML 1
    (pointer_to (TStruct ([mkStructField "Title" true "h1" "" (TString false)]
                          ++ Nums ::
                          [mkStructField "Links" true "a" "href"
                             (TSlice (TString false))])) dest) root
    {[ dest := VStruct [VString ""; VSlice None; VSlice None] ]}
  = (Err "Invalid slice type",
     {[ dest := VStruct [VString "Hello"; VSlice (Some []); VSlice None] ]}).
Proof.
  etrans;
    [apply (first_failure_aborts 0 root dest
              [mkStructField "Title" true "h1" "" (TString false)] Nums
              [mkStructField "Links" true "a" "href" (TSlice (TString false))]
              {[ dest := VStruct [VString ""; VSlice None; VSlice None] ]});
     [reflexivity|reflexivity|discriminate]|].
  vm_compute. reflexivity.
Defined.

(** X7: the nested record of Wrapped fails on its int; the destination is
    as it was. *)
Lemma failed_nested_decode_leaves_store_witness :
  (unmarshalAttr (UnmarshalHTML 1) root (mkValue dest 0 (Typ In)) In
     (fresh_record Wrapped)).1 = Err "Invalid type: <int Value>" ∧
  (unmarshalAttr (UnmarshalHTML 1) root (mkValue dest 0 (Typ In)) In
     (fresh_record Wrapped)).2 !! dest
  = fresh_record Wrapped !! dest.
Proof.
  split; [reflexivity|].
  apply (failed_nested_decode_leaves_store 1 root (mkValue dest 0 (Typ In)) In
           (fresh_record Wrapped)).
  - by left.
  - discriminate.
  - apply elem_of_dom. eexists. reflexivity.
Defined.

(** X9: the []int of Numbered, in a scope where "a" matches nothing. *)
Lemma unsupported_element_is_static_witness :
  nodes (Find heading "a") = [] ∧
  (unmarshalAttr (UnmarshalHTML 0) heading (mkValue dest 1 (Typ Nums)) Nums
     (fresh_record Numbered)).1 = Err "Invalid slice type".
Proof.
  split; [reflexivity|].
  apply (unsupported_element_is_static (UnmarshalHTML 0) heading
           (mkValue dest 1 (Typ Nums)) Nums (TOther "int") (fresh_record Numbered));
    [reflexivity|discriminate].
Defined.

(** X10: the headline of the page. *)
Lemma flat_record_decoded_witness :
  UnmarshalHTML 1 (pointer_to (TStruct Headline) dest) root (fresh_record Headline)
  = (Nil,
     {[ dest := VStruct [VString "Hello";
                         VSlice (Some [VString "x"; VString "y"; VString " z "]);
                         VString ""] ]}).
Proof.
  destruct (flat_record_decoded 0 root dest Headline
              [VString ""; VSlice None; VString ""] (fresh_record Headline))
    as [Hrun _];
    [reflexivity|repeat constructor|repeat constructor
    |repeat constructor; intros _ elems; discriminate|].
  etrans; [exact Hrun|]. vm_compute. reflexivity.
Defined.

(** X11: the headline decoded twice has its links twice. *)
Lemma decoding_twice_witness :
  field (UnmarshalHTML 1 (pointer_to (TStruct Headline) dest) root
           (UnmarshalHTML 1 (pointer_to (TStruct Headline) dest) root
              (fresh_record Headline)).2).2 dest 1
  = Some (VSlice (Some [VString "x"; VString "y"; VString " z ";
                        VString "x"; VString "y"; VString " z "])).
Proof.
  destruct (decoding_twice 0 0 root dest Headline
              [VString ""; VSlice None; VString ""] (fresh_record Headline))
    as [_ Hfields];
    [reflexivity|repeat constructor|repeat constructor
    |repeat constructor; intros _ elems; discriminate|].
  destruct (Hfields 1 (mkStructField "Links" true "a" "href" (TSlice (TString false))))
    as [_ Hseq]; [reflexivity..|].
  destruct (Hseq eq_refl) as [_ Htwice]. exact Htwice.
Defined.

(** X12: the field Body of Article, decoded inside the div. *)
Lemma nested_flat_record_decoded_witness :
  unmarshalAttr (UnmarshalHTML 1) root (mkValue dest 3 (TStruct Inner))
    (mkStructField "Body" true "div" "" (TStruct Inner)) (fresh_record Article)
  = (Nil, store (mkValue dest 3 (TStruct Inner)) (VStruct [VString "some text"])
            (<[2%positive := VStruct [VString "some text"]]> (fresh_record Article))).
Proof.
  apply (nested_flat_record_decoded 0 root (mkValue dest 3 (TStruct Inner))
           (mkStructField "Body" true "div" "" (TStruct Inner)) Inner
           (fresh_record Article)).
  - reflexivity.
  - repeat constructor.
  - discriminate.
Defined.

(** X13: the pointer in the field Box of Article after decoding. *)
Lemma stored_pointers_are_fresh_witness :
  field (fresh_record Article) dest 2 = Some (VPtr (Some 2%positive)) ∨
  ((2%positive ∉ dom (fresh_record Article)) ∧
   (∃ vs, (UnmarshalHTML 2 (pointer_to (TStruct Article) dest) root
             (fresh_record Article)).2 !! 2%positive = Some (VStruct vs))).
Proof.
  apply (stored_pointers_are_fresh 1 root dest Article (fresh_record Article)).
  - apply elem_of_dom. eexists. reflexivity.
  - vm_compute. reflexivity.
Defined.

(** X14: the zero record of Article is of its type, and stays so. *)
Lemma destination_stays_typed_witness :
  ∃ vs, (UnmarshalHTML 2 (pointer_to (TStruct Article) dest) root
           (fresh_record Article)).2 !! dest = Some (VStruct vs) ∧
        Forall2 (fun y attrT =>
                   typed_in (outside {[dest]}
                               (UnmarshalHTML 2 (pointer_to (TStruct Article) dest)
                                  root (fresh_record Article)).2) y (Typ attrT))
                vs Article.
Proof.
  apply (destination_stays_typed 2 Article dest root (fresh_record Article)
           (map (fun f => zero (Typ f)) Article)).
  - reflexivity.
  - repeat constructor.
Defined.

(** X15: Inner decoded by value in the field Body of Article and by
    reference in its field Box, from the zero record. *)
Lemma value_and_reference_agree_witness :
  (unmarshalAttr (UnmarshalHTML 1) root (mkValue dest 3 (TStruct Inner))
     (mkStructField "Box" true "div" "" (TPtr (TStruct Inner)))
     (fresh_record Article)).1
  = (unmarshalAttr (UnmarshalHTML 1) root (mkValue dest 2 (TPtr (TStruct Inner)))
       (mkStructField "Box" true "div" "" (TPtr (TStruct Inner)))
       (fresh_record Article)).1.
Proof.
  destruct (value_and_reference_agree 1 root dest 3 dest 2
              (mkStructField "Box" true "div" "" (TPtr (TStruct Inner))) Inner
              (fresh_record Article)) as [Hsame _]; [by eexists|by eexists|].
  exact Hsame.
Defined.

End further_scenarios.
